(** * DebugUtils-Unreal: the object-path codec and its resolver

    A shallow embedding of [FPathStructure.cpp] (the path parser) and
    [UWorldNavigator.cpp] (the resolver and the formatter), with the
    properties of the path grammar, of the occurrence-index lookups and of
    the sentinel handling stated over it.

    Conventions of the embedding:
    - [FString] is [string]; a [TCHAR] is modelled by an 8-bit [ascii], whose
      code is [code].
    - [int32] is [Z]; arithmetic that the source performs in [int32] is
      written with [wrap32] (two's-complement wrap-around).
    - out-parameters become results: [TryParseInt] returns [option Z],
      [TryParse] returns a [ParseResult].
    - the scene graph is read through a record of host queries, [Host]. *)

From Stdlib Require Import ZArith Lia List Bool Ascii String.
From Stdlib Require Import Sorting.Permutation Sorting.Sorted.
Import ListNotations.

Open Scope Z_scope.
Open Scope string_scope.

(** ** Characters and [int32] *)

Definition code (c : ascii) : Z := Z.of_N (N_of_ascii c).

Definition wrap32 (z : Z) : Z := (z + 2 ^ 31) mod 2 ^ 32 - 2 ^ 31.

Definition in_int32 (z : Z) : Prop := - 2 ^ 31 <= z < 2 ^ 31.

Definition IsEmpty (s : string) : bool :=
  match s with
  | EmptyString => true
  | String _ _ => false
  end.

(** [s += c] on an [FString]. *)
Definition push (s : string) (c : ascii) : string := s ++ String c "".

(** [FString]'s [operator==] and [operator!=] belong to the engine: they
    compare with [Stricmp], which ignores the case of the letters [A]-[Z]
    and compares every other character as it is. *)
Definition ToLower (c : ascii) : ascii :=
  if (code "A" <=? code c)%Z && (code c <=? code "Z")%Z
  then ascii_of_N (Z.to_N (code c + 32))
  else c.

Fixpoint FString_equals (a b : string) : bool :=
  match a, b with
  | EmptyString, EmptyString => true
  | String x a', String y b' =>
      Ascii.eqb (ToLower x) (ToLower y) && FString_equals a' b'
  | _, _ => false
  end.

(** ** [FPathStructure] *)

Record FPathStructure : Type := mkPath {
  WorldName : string;
  LevelName : string;
  LevelIndex : Z;
  ActorName : string;
  ActorIndex : Z;
  ComponentNames : list string;
  ComponentIndices : list Z
}.

(** *** [FPathStructure::TryParseInt]

    The loop of the source, with [Result] threaded through.  [None] is the
    [return false] of the source (the partial [Result] is never read by the
    callers in that case). *)

Definition is_digit (c : ascii) : bool :=
  negb ((code c <? code "0")%Z || (code c >? code "9")%Z).

Fixpoint TryParseInt_from (NumberString : string) (Result : Z) : option Z :=
  match NumberString with
  | EmptyString => Some Result
  | String c rest =>
      if (code c <? code "0")%Z || (code c >? code "9")%Z then None
      else
        let Result := wrap32 (Result * 10) in
        let Result := wrap32 (Result + (code c - code "0")) in
        TryParseInt_from rest Result
  end.

Definition TryParseInt (NumberString : string) : option Z :=
  TryParseInt_from NumberString 0.

(** *** The locals of [FPathStructure::TryParse] *)

(** The enumerators live in a module of their own: the resolver has locals
    called [World], [Level] and [Actor]. *)
Module Fill.

Inductive ECurrentFillingMode : Type :=
| World | Level | LevelIdx | Actor | ActorIdx | Component | ComponentIndex.

Definition eqb (a b : ECurrentFillingMode) : bool :=
  match a, b with
  | World, World | Level, Level | LevelIdx, LevelIdx | Actor, Actor
  | ActorIdx, ActorIdx | Component, Component
  | ComponentIndex, ComponentIndex => true
  | _, _ => false
  end.

End Fill.

Module Loc.

Record t : Type := mk {
  WorldName : string;
  LevelName : string;
  LevelIndexNumber : Z;
  ActorName : string;
  ActorIndexNumber : Z;
  ComponentNames : list string;
  ComponentIndices : list Z;
  WorldSection : string;
  LevelSection : string;
  ActorSection : string;
  ComponentSection : string;
  LevelIndexSection : string;
  ActorIndexSection : string;
  ComponentIndexSection : string;
  CurrentFillingMode : Fill.ECurrentFillingMode;
  SkipNext : bool
}.

Definition init : t :=
  mk "" "" 0 "" 0 [] [] "" "" "" "" "" "" "" Fill.World false.

Definition set_WorldName (v : string) (l : t) : t :=
  let (_, ln, li, an, ai, cn, ci, ws, ls, acs, cs, lis, ais, cis, m, sk) := l in
  mk v ln li an ai cn ci ws ls acs cs lis ais cis m sk.

Definition set_LevelName (v : string) (l : t) : t :=
  let (wn, _, li, an, ai, cn, ci, ws, ls, acs, cs, lis, ais, cis, m, sk) := l in
  mk wn v li an ai cn ci ws ls acs cs lis ais cis m sk.

Definition set_LevelIndexNumber (v : Z) (l : t) : t :=
  let (wn, ln, _, an, ai, cn, ci, ws, ls, acs, cs, lis, ais, cis, m, sk) := l in
  mk wn ln v an ai cn ci ws ls acs cs lis ais cis m sk.

Definition set_ActorName (v : string) (l : t) : t :=
  let (wn, ln, li, _, ai, cn, ci, ws, ls, acs, cs, lis, ais, cis, m, sk) := l in
  mk wn ln li v ai cn ci ws ls acs cs lis ais cis m sk.

Definition set_ActorIndexNumber (v : Z) (l : t) : t :=
  let (wn, ln, li, an, _, cn, ci, ws, ls, acs, cs, lis, ais, cis, m, sk) := l in
  mk wn ln li an v cn ci ws ls acs cs lis ais cis m sk.

Definition set_ComponentNames (v : list string) (l : t) : t :=
  let (wn, ln, li, an, ai, _, ci, ws, ls, acs, cs, lis, ais, cis, m, sk) := l in
  mk wn ln li an ai v ci ws ls acs cs lis ais cis m sk.

Definition set_ComponentIndices (v : list Z) (l : t) : t :=
  let (wn, ln, li, an, ai, cn, _, ws, ls, acs, cs, lis, ais, cis, m, sk) := l in
  mk wn ln li an ai cn v ws ls acs cs lis ais cis m sk.

Definition set_WorldSection (v : string) (l : t) : t :=
  let (wn, ln, li, an, ai, cn, ci, _, ls, acs, cs, lis, ais, cis, m, sk) := l in
  mk wn ln li an ai cn ci v ls acs cs lis ais cis m sk.

Definition set_LevelSection (v : string) (l : t) : t :=
  let (wn, ln, li, an, ai, cn, ci, ws, _, acs, cs, lis, ais, cis, m, sk) := l in
  mk wn ln li an ai cn ci ws v acs cs lis ais cis m sk.

Definition set_ActorSection (v : string) (l : t) : t :=
  let (wn, ln, li, an, ai, cn, ci, ws, ls, _, cs, lis, ais, cis, m, sk) := l in
  mk wn ln li an ai cn ci ws ls v cs lis ais cis m sk.

Definition set_ComponentSection (v : string) (l : t) : t :=
  let (wn, ln, li, an, ai, cn, ci, ws, ls, acs, _, lis, ais, cis, m, sk) := l in
  mk wn ln li an ai cn ci ws ls acs v lis ais cis m sk.

Definition set_LevelIndexSection (v : string) (l : t) : t :=
  let (wn, ln, li, an, ai, cn, ci, ws, ls, acs, cs, _, ais, cis, m, sk) := l in
  mk wn ln li an ai cn ci ws ls acs cs v ais cis m sk.

Definition set_ActorIndexSection (v : string) (l : t) : t :=
  let (wn, ln, li, an, ai, cn, ci, ws, ls, acs, cs, lis, _, cis, m, sk) := l in
  mk wn ln li an ai cn ci ws ls acs cs lis v cis m sk.

Definition set_ComponentIndexSection (v : string) (l : t) : t :=
  let (wn, ln, li, an, ai, cn, ci, ws, ls, acs, cs, lis, ais, _, m, sk) := l in
  mk wn ln li an ai cn ci ws ls acs cs lis ais v m sk.

Definition set_CurrentFillingMode (v : Fill.ECurrentFillingMode) (l : t) : t :=
  let (wn, ln, li, an, ai, cn, ci, ws, ls, acs, cs, lis, ais, cis, _, sk) := l in
  mk wn ln li an ai cn ci ws ls acs cs lis ais cis v sk.

Definition set_SkipNext (v : bool) (l : t) : t :=
  let (wn, ln, li, an, ai, cn, ci, ws, ls, acs, cs, lis, ais, cis, m, _) := l in
  mk wn ln li an ai cn ci ws ls acs cs lis ais cis m v.

End Loc.

(** What one pass through the body of the [for] loop does: fall through to
    the next iteration with updated locals ([continue] or the end of the
    body), or leave [TryParse] with [return false] and an [ErrorMessage]. *)
Inductive Flow : Type :=
| Next (l : Loc.t)
| ReturnFalse (ErrorMessage : string).

(** [Path[i + 1]], present when [i < Path.Len() - 1]. *)
Definition peek (rest : string) : option ascii :=
  match rest with
  | EmptyString => None
  | String d _ => Some d
  end.

Definition next_is (next : option ascii) (d : ascii) : bool :=
  match next with
  | Some e => Ascii.eqb e d
  | None => false
  end.

(** The trailing seven [if (CurrentFillingMode == ...) Section += Path[i]]
    statements: none of them changes the mode, so exactly one fires. *)
Definition fill (c : ascii) (l : Loc.t) : Loc.t :=
  match Loc.CurrentFillingMode l with
  | Fill.World => Loc.set_WorldSection (push (Loc.WorldSection l) c) l
  | Fill.Level => Loc.set_LevelSection (push (Loc.LevelSection l) c) l
  | Fill.Actor => Loc.set_ActorSection (push (Loc.ActorSection l) c) l
  | Fill.Component => Loc.set_ComponentSection (push (Loc.ComponentSection l) c) l
  | Fill.LevelIdx => Loc.set_LevelIndexSection (push (Loc.LevelIndexSection l) c) l
  | Fill.ActorIdx => Loc.set_ActorIndexSection (push (Loc.ActorIndexSection l) c) l
  | Fill.ComponentIndex =>
      Loc.set_ComponentIndexSection (push (Loc.ComponentIndexSection l) c) l
  end.

(** The body of the [for] loop at [Path[i] = c], [next] being [Path[i+1]]. *)
Definition body (c : ascii) (next : option ascii) (l : Loc.t) : Flow :=
  let mode := Loc.CurrentFillingMode l in
  if Loc.SkipNext l then
    Next (Loc.set_SkipNext false l)
  else if Ascii.eqb c "@" then
    Next (Loc.set_CurrentFillingMode Fill.Level
            (Loc.set_WorldName (Loc.WorldSection l) l))
  else if Ascii.eqb c ":" && next_is next "/" then
    match TryParseInt (Loc.LevelIndexSection l) with
    | None =>
        ReturnFalse ("Failed to parse level index: " ++ Loc.LevelIndexSection l)
    | Some LevelIndex =>
        Next (Loc.set_SkipNext true
               (Loc.set_CurrentFillingMode Fill.Actor
                 (Loc.set_LevelIndexNumber LevelIndex
                   (Loc.set_LevelName (Loc.LevelSection l) l))))
    end
  else if Ascii.eqb c "-" && next_is next ">" then
    Next (Loc.set_SkipNext true (Loc.set_CurrentFillingMode Fill.Component l))
  else if Ascii.eqb c "[" && Fill.eqb mode Fill.Level then
    Next (Loc.set_CurrentFillingMode Fill.LevelIdx l)
  else if Ascii.eqb c "]" && Fill.eqb mode Fill.LevelIdx then
    Next (Loc.set_CurrentFillingMode Fill.Level l)
  else if Ascii.eqb c "[" && Fill.eqb mode Fill.Actor then
    Next (Loc.set_CurrentFillingMode Fill.ActorIdx l)
  else if Ascii.eqb c "]" && Fill.eqb mode Fill.ActorIdx then
    match TryParseInt (Loc.ActorIndexSection l) with
    | None =>
        ReturnFalse ("Failed to parse actor index: " ++ Loc.ActorIndexSection l)
    | Some ActorIndex =>
        Next (Loc.set_CurrentFillingMode Fill.Actor
               (Loc.set_ActorIndexNumber ActorIndex
                 (Loc.set_ActorName (Loc.ActorSection l) l)))
    end
  else if Ascii.eqb c "[" && Fill.eqb mode Fill.Component then
    Next (Loc.set_CurrentFillingMode Fill.ComponentIndex l)
  else if Ascii.eqb c "]" && Fill.eqb mode Fill.ComponentIndex then
    Next (Loc.set_CurrentFillingMode Fill.Component l)
  else if Ascii.eqb c "/" && Fill.eqb mode Fill.Component then
    match TryParseInt (Loc.ComponentIndexSection l) with
    | None =>
        ReturnFalse
          ("Failed to parse component index: " ++ Loc.ComponentIndexSection l)
    | Some ComponentIndex =>
        Next (Loc.set_ComponentIndexSection ""
               (Loc.set_ComponentSection ""
                 (Loc.set_ComponentIndices
                    (Loc.ComponentIndices l ++ [ComponentIndex])%list
                    (Loc.set_ComponentNames
                       (Loc.ComponentNames l ++ [Loc.ComponentSection l])%list
                       l))))
    end
  else Next (fill c l).

(** The [for] loop over the characters of [Path] that are still to be read. *)
Fixpoint loop (Path : string) (l : Loc.t) : Flow :=
  match Path with
  | EmptyString => Next l
  | String c rest =>
      match body c (peek rest) l with
      | Next l' => loop rest l'
      | ReturnFalse e => ReturnFalse e
      end
  end.

Inductive ParseResult : Type :=
| ParseOk (Result : FPathStructure)
| ParseFail (ErrorMessage : string).

(** *** [FPathStructure::TryParse]

    The statements after the loop are the two checks and the copy into
    [Result]; nothing is done with the pending [ComponentSection] and
    [ComponentIndexSection]. *)
Definition TryParse (Path : string) : ParseResult :=
  match loop Path Loc.init with
  | ReturnFalse e => ParseFail e
  | Next l =>
      if IsEmpty (Loc.WorldName l) || IsEmpty (Loc.LevelName l)
         || IsEmpty (Loc.ActorName l)
      then ParseFail "Missing required path components"
      else if negb (Nat.eqb (List.length (Loc.ComponentNames l))
                            (List.length (Loc.ComponentIndices l)))
      then ParseFail "Component names and indices must be the same length"
      else ParseOk (mkPath (Loc.WorldName l) (Loc.LevelName l)
                           (Loc.LevelIndexNumber l) (Loc.ActorName l)
                           (Loc.ActorIndexNumber l) (Loc.ComponentNames l)
                           (Loc.ComponentIndices l))
  end.

(** ** [FString::Printf]

    The engine's [Printf] is not part of the repository; only the [%d]
    conversion of an [int32] and the [%s] splice are used.  [%d] writes a
    minus sign for a negative value and then the decimal digits, most
    significant first, without leading zeros; an [int32] has at most ten. *)

Definition digit_char (d : Z) : ascii := ascii_of_N (Z.to_N (code "0" + d)).

Fixpoint digits_of (fuel : nat) (n : Z) (acc : string) : string :=
  match fuel with
  | O => acc
  | S fuel' =>
      let acc' := String (digit_char (n mod 10)) acc in
      if (n <? 10)%Z then acc' else digits_of fuel' (n / 10) acc'
  end.

Definition printf_d (n : Z) : string :=
  if (n <? 0)%Z then String "-" (digits_of 10 (- n) "")
  else digits_of 10 n "".

(** ["%s[%d]"], one link of a component chain. *)
Definition Printf_link (Name : string) (Index : Z) : string :=
  Name ++ "[" ++ printf_d Index ++ "]".

(** ["%s@%s[%d]:/%s[%d]"] followed by [Tail]: the three [Printf] patterns of
    the [GetWorldPath] overloads differ in the tail only (nothing, ["->%s[%d]"]
    or ["->%s"]). *)
Definition Printf_path (WorldName LevelName : string) (LevelIndex : Z)
    (ActorName : string) (ActorIndex : Z) (Tail : string) : string :=
  WorldName ++ "@" ++ LevelName ++ "[" ++ printf_d LevelIndex ++ "]:/"
    ++ ActorName ++ "[" ++ printf_d ActorIndex ++ "]" ++ Tail.

(** [FString::Join(Parts, Separator)]. *)
Fixpoint Join (Parts : list string) (Separator : string) : string :=
  match Parts with
  | [] => ""
  | [x] => x
  | x :: rest => x ++ Separator ++ Join rest Separator
  end.

(** ** The host scene graph

    Objects are referred to by pointers; [Ptr] is the pointer value and
    [A == B] on pointers is [N.eqb].  A nullable pointer is an
    [option Ptr].  The record lists the engine calls that
    [UWorldNavigator.cpp] makes. *)

Definition Ptr : Type := N.

Record Host : Type := mkHost {
  (** [FindObject<UWorld>(ANY_PACKAGE, Name)] *)
  FindObject_UWorld : string -> option Ptr;
  (** [FindObject<ULevel>(World, Name)] *)
  FindObject_ULevel : Ptr -> string -> option Ptr;
  (** [FindObject<AActor>(Level, Name)] *)
  FindObject_AActor : Ptr -> string -> option Ptr;
  (** [X->GetName()] *)
  GetName : Ptr -> string;
  (** [X->GetUniqueID()] *)
  GetUniqueID : Ptr -> Z;
  (** [World->PersistentLevel] *)
  PersistentLevel : Ptr -> Ptr;
  (** [World->GetLevels()] *)
  GetLevels : Ptr -> list Ptr;
  (** [Level->Actors] *)
  Actors : Ptr -> list Ptr;
  (** [Actor->GetComponents().Array()], in the order the set happens to
      enumerate *)
  GetComponents : Ptr -> list Ptr;
  (** [Cast<USceneComponent>(Component)] succeeds *)
  IsSceneComponent : Ptr -> bool;
  (** [SceneComponent->GetAttachParent()] *)
  GetAttachParent : Ptr -> option Ptr;
  (** [X->GetWorld()] *)
  GetWorld : Ptr -> option Ptr;
  (** [Actor->GetLevel()], [Component->GetComponentLevel()] *)
  GetLevel : Ptr -> option Ptr;
  (** [Component->GetOwner()] *)
  GetOwner : Ptr -> option Ptr;
  (** what the two [int32] members of a default-constructed
      [FPathStructure] happen to hold (the struct has no initialisers) *)
  Indeterminate : Z * Z
}.

(** ** [UWorldNavigator]: the collectors *)

Definition GetAllLevelsInWorld (h : Host) (World : Ptr) : list Ptr :=
  (PersistentLevel h World :: GetLevels h World)%list.

Definition GetAllActorsInLevel (h : Host) (Level : Ptr) : list Ptr :=
  Actors h Level.

(** [Results.Sort] with [A.GetUniqueID() < B.GetUniqueID()]: unique ids are
    pairwise different on live objects, so every sorting algorithm returns
    the same array; insertion sort stands for it. *)
Fixpoint insert_by_id (h : Host) (x : Ptr) (l : list Ptr) : list Ptr :=
  match l with
  | [] => [x]
  | y :: l' =>
      if (GetUniqueID h x <? GetUniqueID h y)%Z then x :: l
      else y :: insert_by_id h x l'
  end%list.

Definition Sort (h : Host) (l : list Ptr) : list Ptr :=
  fold_right (insert_by_id h) [] l.

Definition GetAllComponentsInActor (h : Host) (Actor : Ptr) : list Ptr :=
  Sort h (GetComponents h Actor).

(** ** [UWorldNavigator]: the resolver *)

(** The loop shared, up to the test on the candidate, by the level, actor
    and component lookups:
    [for (auto X : Xs) { if (!cand(X)) continue;
       if (sameNumberHit == Index) { Matching = X; break; }
       sameNumberHit += 1; }].
    It returns the match, if any, and the final [sameNumberHit] (a
    [TArray] holds fewer than [2^31] elements, so the counter does not
    wrap). *)
Fixpoint scan (cand : Ptr -> bool) (Index : Z) (Xs : list Ptr)
    (sameNumberHit : Z) : option Ptr * Z :=
  match Xs with
  | [] => (None, sameNumberHit)
  | X :: Xs' =>
      if negb (cand X) then scan cand Index Xs' sameNumberHit
      else if (sameNumberHit =? Index)%Z then (Some X, sameNumberHit)
      else scan cand Index Xs' (sameNumberHit + 1)
  end.

Definition named (h : Host) (Name : string) (X : Ptr) : bool :=
  FString_equals (GetName h X) Name.

Definition scene_named (h : Host) (Name : string) (X : Ptr) : bool :=
  IsSceneComponent h X && FString_equals (GetName h X) Name.

(** The [for (int32 i = 0; i < Result.ComponentNames.Num(); ++i)] loop of
    the two component resolvers, entered with equally long arrays.
    [MatchingComponent] is declared before the loop and is only ever
    assigned on a hit. *)
Fixpoint component_walk (cand : string -> Ptr -> bool) (Components : list Ptr)
    (Names : list string) (Indices : list Z) (MatchingComponent : option Ptr)
    : option Ptr :=
  match Names, Indices with
  | ComponentName :: Names', Index :: Indices' =>
      let (hit, sameNumberHit) := scan (cand ComponentName) Index Components 0 in
      let MatchingComponent :=
        match hit with
        | Some c => Some c
        | None => MatchingComponent
        end in
      if (sameNumberHit <? Index)%Z then None
      else component_walk cand Components Names' Indices' MatchingComponent
  | _, _ => MatchingComponent
  end.

(** What a resolver call does: return a (nullable) pointer or throw an
    [FString]. *)
Inductive Outcome : Type :=
| Returned (p : option Ptr)
| Thrown (msg : string).

(** A call together with the lines it wrote with [UE_LOG(LogTemp, Error)]. *)
Definition Call : Type := (Outcome * list string)%type.

Definition default_Result (h : Host) : FPathStructure :=
  mkPath "" "" (fst (Indeterminate h)) "" (snd (Indeterminate h)) [] [].

(** [FPathStructure Result; if (!TryParse(Path, ErrorMessage, Result))
    UE_LOG(...)]: the record the resolver goes on with, and the log. *)
Definition parse_or_log (h : Host) (Path : string)
    : FPathStructure * list string :=
  match TryParse Path with
  | ParseOk Result => (Result, []%list)
  | ParseFail ErrorMessage => (default_Result h, [ErrorMessage])
  end.

(** Lines 73-109 of [FindActorComponentByPath]. *)
Definition actor_component_stage (h : Host) (Result : FPathStructure)
    (MatchingActor : Ptr) : Outcome :=
  let Components := GetAllComponentsInActor h MatchingActor in
  if negb (Nat.eqb (List.length (ComponentNames Result))
                   (List.length (ComponentIndices Result)))
  then Thrown "Component names and indices must be the same length"
  else if negb (Nat.eqb (List.length (ComponentNames Result)) 1)
  then Thrown "Only one component layer should be specified"
  else Returned (component_walk (named h) Components
                   (ComponentNames Result) (ComponentIndices Result) None).

(** Lines 181-220 of [FindSceneComponentByPath]. *)
Definition scene_component_stage (h : Host) (Result : FPathStructure)
    (MatchingActor : Ptr) : Outcome :=
  let Components := GetAllComponentsInActor h MatchingActor in
  if negb (Nat.eqb (List.length (ComponentNames Result))
                   (List.length (ComponentIndices Result)))
  then Thrown "Component names and indices must be the same length"
  else if Nat.eqb (List.length (ComponentNames Result)) 0
  then Thrown "At least one component layer should be specified"
  else Returned (component_walk (scene_named h) Components
                   (ComponentNames Result) (ComponentIndices Result) None).

(** Lines 28-72 (and 136-180): world, level and actor lookup, then the
    component stage [stage] of the entry point. *)
Definition locate_actor_then (h : Host) (Result : FPathStructure)
    (stage : Host -> FPathStructure -> Ptr -> Outcome) : Outcome :=
  match FindObject_UWorld h (WorldName Result) with
  | None => Returned None
  | Some World =>
      let Levels := GetAllLevelsInWorld h World in
      match fst (scan (named h (LevelName Result)) (LevelIndex Result)
                      Levels 0) with
      | None => Returned None
      | Some MatchingLevel =>
          let Actors := GetAllActorsInLevel h MatchingLevel in
          match fst (scan (named h (ActorName Result)) (ActorIndex Result)
                          Actors 0) with
          | None => Returned None
          | Some MatchingActor => stage h Result MatchingActor
          end
      end
  end.

Definition FindActorComponentByPath (h : Host) (Path : string) : Call :=
  if IsEmpty Path then (Returned None, [])
  else if FString_equals Path "[invalid world]" then (Returned None, [])
  else if FString_equals Path "[invalid level]" then (Returned None, [])
  else if FString_equals Path "[invalid actor]" then (Returned None, [])
  else
    let (Result, log) := parse_or_log h Path in
    (locate_actor_then h Result actor_component_stage, log).

Definition FindSceneComponentByPath (h : Host) (Path : string) : Call :=
  if IsEmpty Path then (Returned None, [])
  else if FString_equals Path "[invalid world]" then (Returned None, [])
  else if FString_equals Path "[invalid level]" then (Returned None, [])
  else if FString_equals Path "[invalid actor]" then (Returned None, [])
  else
    let (Result, log) := parse_or_log h Path in
    (locate_actor_then h Result scene_component_stage, log).

Definition FindUActorByPath (h : Host) (Path : string) : Call :=
  if IsEmpty Path then (Returned None, [])
  else if FString_equals Path "[invalid world]" then (Returned None, [])
  else if FString_equals Path "[invalid level]" then (Returned None, [])
  else
    let (Result, log) := parse_or_log h Path in
    match FindObject_UWorld h (WorldName Result) with
    | None => (Returned None, log)
    | Some World =>
        match FindObject_ULevel h World (LevelName Result) with
        | None => (Returned None, log)
        | Some Level =>
            match FindObject_AActor h Level (ActorName Result) with
            | None => (Returned None, log)
            | Some Actor => (Returned (Some Actor), log)
            end
        end
    end.

(** ** [UWorldNavigator]: the formatter

    A function that dereferences a pointer the source does not test
    returns [None] when that pointer is null. *)

(** [for (int32 i = 0; i < Xs.Num(); ++i) if (Xs[i] == X) return i;
    return -1;], entered at index [i]. *)
Fixpoint index_from (X : Ptr) (Xs : list Ptr) (i : Z) : Z :=
  match Xs with
  | [] => -1
  | Y :: Xs' => if N.eqb Y X then i else index_from X Xs' (i + 1)
  end.

Definition GetIndexOfSameLevel (h : Host) (Level : Ptr) : option Z :=
  match GetWorld h Level with
  | None => None
  | Some World => Some (index_from Level (GetAllLevelsInWorld h World) 0)
  end.

(** The nested loops of [GetIndexOfSameActor]: the value returned on a hit
    is the outer counter [i]. *)
Fixpoint actor_index_from (h : Host) (Actor : Ptr) (Levels : list Ptr)
    (i : Z) : Z :=
  match Levels with
  | [] => -1
  | Level :: Levels' =>
      if existsb (fun A => N.eqb A Actor) (GetAllActorsInLevel h Level)
      then i
      else actor_index_from h Actor Levels' (i + 1)
  end.

Definition GetIndexOfSameActor (h : Host) (Actor : Ptr) : option Z :=
  match GetWorld h Actor with
  | None => None
  | Some World => Some (actor_index_from h Actor (GetAllLevelsInWorld h World) 0)
  end.

(** Both overloads of [GetIndexOfSameComponent] have this body. *)
Definition GetIndexOfSameComponent (h : Host) (Component : Ptr) : option Z :=
  match GetOwner h Component with
  | None => None
  | Some Owner => Some (index_from Component (GetAllComponentsInActor h Owner) 0)
  end.

(** The [while (true)] loop of [GetSceneComponentHierarchy]; [fuel] bounds
    the number of attach parents followed, [None] is "not finished". *)
Fixpoint hierarchy_loop (fuel : nat) (h : Host) (StartComponent : Ptr)
    (Result : list string) : option (list string) :=
  match fuel with
  | O => None
  | S fuel' =>
      match GetAttachParent h StartComponent with
      | None => Some Result
      | Some ParentComponent =>
          match GetIndexOfSameComponent h ParentComponent with
          | None => None
          | Some ComponentIndex =>
              hierarchy_loop fuel' h ParentComponent
                (Result ++ [Printf_link (GetName h ParentComponent)
                                        ComponentIndex])%list
          end
      end
  end.

Definition GetSceneComponentHierarchy (fuel : nat) (h : Host)
    (Component : Ptr) : option (list string) :=
  match GetIndexOfSameComponent h Component with
  | None => None
  | Some StartComponentIndex =>
      match hierarchy_loop fuel h Component
              [Printf_link (GetName h Component) StartComponentIndex] with
      | None => None
      | Some Result => Some (rev Result)
      end
  end.

Definition GetWorldPath_Actor (h : Host) (Actor : option Ptr)
    : option string :=
  match Actor with
  | None => Some "[invalid actor]"
  | Some Actor =>
  match GetWorld h Actor with
  | None => Some "[invalid world]"
  | Some World =>
  match GetLevel h Actor with
  | None => Some "[invalid level]"
  | Some Level =>
  match GetIndexOfSameLevel h Level, GetIndexOfSameActor h Actor with
  | Some LevelIndex, Some ActorIndex =>
      Some (Printf_path (GetName h World) (GetName h Level) LevelIndex
                        (GetName h Actor) ActorIndex "")
  | _, _ => None
  end end end end.

Definition GetWorldPath_SceneComponent (fuel : nat) (h : Host)
    (Component : option Ptr) : option string :=
  match Component with
  | None => Some "[null Component]"
  | Some Component =>
  match GetWorld h Component with
  | None => Some "[null World]"
  | Some World =>
  match GetLevel h Component with
  | None => Some "[null Level]"
  | Some Level =>
  match GetOwner h Component with
  | None => Some "[null Actor]"
  | Some Actor =>
  match GetIndexOfSameLevel h Level, GetIndexOfSameActor h Actor,
        GetSceneComponentHierarchy fuel h Component with
  | Some LevelIndex, Some ActorIndex, Some ComponentHierarchy =>
      let ComponentString := Join ComponentHierarchy "/" in
      Some (Printf_path (GetName h World) (GetName h Level) LevelIndex
                        (GetName h Actor) ActorIndex
                        ("->" ++ ComponentString))
  | _, _, _ => None
  end end end end end.

Definition GetWorldPath_ActorComponent (fuel : nat) (h : Host)
    (Component : option Ptr) : option string :=
  match Component with
  | None => Some "[invalid component]"
  | Some Component =>
  match GetWorld h Component with
  | None => Some "[invalid world]"
  | Some World =>
  match GetLevel h Component with
  | None => Some "[invalid level]"
  | Some Level =>
  match GetOwner h Component with
  | None => Some "[invalid actor]"
  | Some Actor =>
  if IsSceneComponent h Component
  then GetWorldPath_SceneComponent fuel h (Some Component)
  else
  match GetIndexOfSameLevel h Level, GetIndexOfSameActor h Actor,
        GetIndexOfSameComponent h Component with
  | Some LevelIndex, Some ActorIndex, Some ComponentIndex =>
      Some (Printf_path (GetName h World) (GetName h Level) LevelIndex
                        (GetName h Actor) ActorIndex
                        ("->" ++ Printf_link (GetName h Component)
                                             ComponentIndex))
  | _, _, _ => None
  end end end end end.

(** ** Definitions that follow the specification *)

(** Modelled from the spec: the repository has no serializer of an
    [FPathStructure]; section 4.1, "Formatting contract", asks for the
    canonical syntax with the component chain omitted when there are no
    steps.  [format] writes it with the [Printf] patterns of
    [GetWorldPath]: the links ["%s[%d]"] joined by ["/"] after ["->"]. *)
Definition format (r : FPathStructure) : string :=
  Printf_path (WorldName r) (LevelName r) (LevelIndex r)
              (ActorName r) (ActorIndex r)
    match ComponentNames r with
    | [] => ""
    | _ :: _ =>
        "->" ++ Join (map (fun step => Printf_link (fst step) (snd step))
                          (combine (ComponentNames r) (ComponentIndices r)))
                     "/"
    end.

(** Section 4.3, "Occurrence-index semantics": the sibling with name [N] at
    index [k] is the [k]-th of the siblings whose name equals [N]. *)
Definition nth_same_name (h : Host) (N : string) (k : Z) (siblings : list Ptr)
    : option Ptr :=
  if (k <? 0)%Z then None
  else nth_error (filter (named h N) siblings) (Z.to_nat k).

(** Section 4.3: the occurrence index of [X] is its 0-based position among
    the siblings that share its name. *)
Definition occurrence_index (h : Host) (X : Ptr) (siblings : list Ptr) : Z :=
  index_from X (filter (named h (GetName h X)) siblings) 0.

(** The characters on which [TryParse] acts or may act, depending on the
    mode and on the next character: a name of the grammar has none of
    them. *)
Definition is_delimiter (c : ascii) : bool :=
  Ascii.eqb c "@" || Ascii.eqb c ":" || Ascii.eqb c "-"
  || Ascii.eqb c "[" || Ascii.eqb c "]" || Ascii.eqb c "/".

Fixpoint forallb_string (p : ascii -> bool) (s : string) : bool :=
  match s with
  | EmptyString => true
  | String c rest => p c && forallb_string p rest
  end.

Definition plain (s : string) : bool :=
  forallb_string (fun c => negb (is_delimiter c)) s.

Definition digits_only (s : string) : bool := forallb_string is_digit s.

(** The number a digit string denotes, without any bound. *)
Fixpoint decimal_from (s : string) (acc : Z) : Z :=
  match s with
  | EmptyString => acc
  | String c rest => decimal_from rest (acc * 10 + (code c - code "0"))
  end.

Definition decimal_value (s : string) : Z := decimal_from s 0.

(** ** A small scene

    World [W] (pointer 1) with the persistent level [L] (10) and no other
    level; [L] holds the actor [A] (100), which owns the scene components
    [Root] (1000, unique id 5) and [Mesh] (1001, unique id 7) and the plain
    component [Health] (1002, unique id 6); [Mesh] is attached to [Root]. *)
Module Scene.

Definition name (p : Ptr) : string :=
  match p with
  | 1%N => "W" | 10%N => "L" | 100%N => "A"
  | 1000%N => "Root" | 1001%N => "Mesh" | 1002%N => "Health"
  | _ => ""
  end.

Definition uid (p : Ptr) : Z :=
  match p with
  | 1000%N => 5 | 1001%N => 7 | 1002%N => 6
  | _ => Z.of_N p
  end.

Definition host : Host := {|
  FindObject_UWorld := fun n => if String.eqb n "W" then Some 1%N else None;
  FindObject_ULevel := fun w n =>
    if N.eqb w 1 && String.eqb n "L" then Some 10%N else None;
  FindObject_AActor := fun l n =>
    if N.eqb l 10 && String.eqb n "A" then Some 100%N else None;
  GetName := name;
  GetUniqueID := uid;
  PersistentLevel := fun _ => 10%N;
  GetLevels := fun _ => [];
  Actors := fun l => if N.eqb l 10 then [100%N] else [];
  GetComponents := fun a =>
    if N.eqb a 100 then [1001%N; 1002%N; 1000%N] else [];
  IsSceneComponent := fun c => N.eqb c 1000 || N.eqb c 1001;
  GetAttachParent := fun c => if N.eqb c 1001 then Some 1000%N else None;
  GetWorld := fun _ => Some 1%N;
  GetLevel := fun _ => Some 10%N;
  GetOwner := fun _ => Some 100%N;
  Indeterminate := (0, 0)
|}.

End Scene.

(** ** Texts, runs and invariants used in the statements *)

(** [Section += seg] for the section of the current mode: what the loop
    does over a run [seg] of characters on none of which it acts. *)
Definition append_current (seg : string) (l : Loc.t) : Loc.t :=
  match Loc.CurrentFillingMode l with
  | Fill.World => Loc.set_WorldSection (Loc.WorldSection l ++ seg) l
  | Fill.Level => Loc.set_LevelSection (Loc.LevelSection l ++ seg) l
  | Fill.Actor => Loc.set_ActorSection (Loc.ActorSection l ++ seg) l
  | Fill.Component => Loc.set_ComponentSection (Loc.ComponentSection l ++ seg) l
  | Fill.LevelIdx =>
      Loc.set_LevelIndexSection (Loc.LevelIndexSection l ++ seg) l
  | Fill.ActorIdx =>
      Loc.set_ActorIndexSection (Loc.ActorIndexSection l ++ seg) l
  | Fill.ComponentIndex =>
      Loc.set_ComponentIndexSection (Loc.ComponentIndexSection l ++ seg) l
  end.

(** [c], followed by [next], starts one of the two-character delimiters
    [":/"] and ["->"]. *)
Definition is_pair (c : ascii) (next : option ascii) : bool :=
  Ascii.eqb c ":" && next_is next "/" || Ascii.eqb c "-" && next_is next ">".

(** In mode [m] the loop of [TryParse] acts on [c] (followed by [next]) as
    a delimiter instead of appending it to the section of [m]: ["@"],
    [":/"] and ["->"] in every mode, ["["] when a name of a level or an
    actor is read, ["]"] when an index is read, ["["] and ["/"] when the
    name of a component is read. *)
Definition acts (m : Fill.ECurrentFillingMode) (c : ascii)
    (next : option ascii) : bool :=
  Ascii.eqb c "@" || is_pair c next
  || match m with
     | Fill.World => false
     | Fill.Level | Fill.Actor => Ascii.eqb c "["
     | Fill.LevelIdx | Fill.ActorIdx | Fill.ComponentIndex => Ascii.eqb c "]"
     | Fill.Component => Ascii.eqb c "[" || Ascii.eqb c "/"
     end.

Definition peek_or (rest : string) (after : option ascii) : option ascii :=
  match rest with
  | EmptyString => after
  | String d _ => Some d
  end.

(** The loop, in mode [m], acts on no character of [seg], the character
    after [seg] being [after]. *)
Fixpoint inert (m : Fill.ECurrentFillingMode) (seg : string)
    (after : option ascii) : bool :=
  match seg with
  | EmptyString => true
  | String c rest =>
      negb (acts m c (peek_or rest after)) && inert m rest after
  end.

(** Neither [":/"] nor ["->"] occurs in [s]. *)
Fixpoint no_pair (s : string) : bool :=
  match s with
  | EmptyString => true
  | String c rest => negb (is_pair c (peek rest)) && no_pair rest
  end.

(** Neither [":/"] nor ["->"] occurs in [s] followed by [after]. *)
Fixpoint no_pair_before (s : string) (after : option ascii) : bool :=
  match s with
  | EmptyString => true
  | String c rest =>
      negb (is_pair c (peek_or rest after)) && no_pair_before rest after
  end.

(** The character [d] does not occur in [s]. *)
Definition lacks (d : ascii) (s : string) : bool :=
  forallb_string (fun c => negb (Ascii.eqb c d)) s.

(** The text of component steps each of which is closed by ["/"], followed
    by [tail]; a step is a name and the text between its brackets. *)
Fixpoint steps_text (steps : list (string * string)) (tail : string) : string :=
  match steps with
  | [] => tail
  | step :: rest =>
      fst step ++ "[" ++ snd step ++ "]/" ++ steps_text rest tail
  end.

Definition good_step (step : string * string) : bool :=
  inert Fill.Component (fst step) (Some "["%char) && digits_only (snd step).

(** The index that [TryParseInt] stores for a digit string. *)
Definition index_of_text (s : string) : Z := wrap32 (decimal_value s).

(** The two committed indices of the locals are [int32] values. *)
Definition indices_in_range (l : Loc.t) : Prop :=
  in_int32 (Loc.LevelIndexNumber l) /\ in_int32 (Loc.ActorIndexNumber l).

(** Whether ["@"] occurs in a text. *)
Fixpoint has_at (s : string) : bool :=
  match s with
  | EmptyString => false
  | String c rest => Ascii.eqb c "@" || has_at rest
  end.

(** Neither the sections of the three names nor the committed names hold
    an ["@"], and those of the level and of the actor hold no ["["]. *)
Definition names_clean (l : Loc.t) : Prop :=
  lacks "@" (Loc.WorldSection l) = true
  /\ lacks "@" (Loc.LevelSection l) = true
  /\ lacks "@" (Loc.ActorSection l) = true
  /\ lacks "[" (Loc.LevelSection l) = true
  /\ lacks "[" (Loc.ActorSection l) = true
  /\ lacks "@" (Loc.WorldName l) = true
  /\ lacks "@" (Loc.LevelName l) = true
  /\ lacks "@" (Loc.ActorName l) = true
  /\ lacks "[" (Loc.LevelName l) = true
  /\ lacks "[" (Loc.ActorName l) = true.

(** The world name and its section hold neither [":/"] nor ["->"]; while
    the mode is [World], not even together with the character [upcoming]
    that the loop reads next. *)
Definition world_clean (l : Loc.t) (upcoming : option ascii) : Prop :=
  no_pair (Loc.WorldName l) = true
  /\ match Loc.CurrentFillingMode l with
     | Fill.World =>
         no_pair_before (Loc.WorldSection l) upcoming = true
         /\ Loc.SkipNext l = false
     | _ => no_pair (Loc.WorldSection l) = true
     end.

(** [":/"] occurs in a text. *)
Fixpoint has_colon_slash (s : string) : bool :=
  match s with
  | EmptyString => false
  | String c rest =>
      Ascii.eqb c ":" && next_is (peek rest) "/" || has_colon_slash rest
  end.

(** The component arrays of the locals are equally long. *)
Definition arrays_paired (l : Loc.t) : Prop :=
  List.length (Loc.ComponentNames l) = List.length (Loc.ComponentIndices l).

(** The error messages with which the loop of [TryParse] returns: one of
    the three index messages, quoting a text that is not made of digits. *)
Definition index_error (e : string) : Prop :=
  exists t, digits_only t = false
            /\ (e = "Failed to parse level index: " ++ t
                \/ e = "Failed to parse actor index: " ++ t
                \/ e = "Failed to parse component index: " ++ t).

(** The paths that the two component resolvers return on before parsing
    (lines 6-21 and 114-129), and those that [FindUActorByPath] returns on
    (lines 225-236). *)
Definition guarded (Path : string) : bool :=
  IsEmpty Path || FString_equals Path "[invalid world]"
  || FString_equals Path "[invalid level]"
  || FString_equals Path "[invalid actor]".

Definition guarded_actor (Path : string) : bool :=
  IsEmpty Path || FString_equals Path "[invalid world]"
  || FString_equals Path "[invalid level]".

(** Ascending order of unique ids. *)
Definition id_le (h : Host) (a b : Ptr) : Prop :=
  GetUniqueID h a <= GetUniqueID h b.

(** The host [h] with another enumeration of the component sets. *)
Definition with_GetComponents (h : Host) (g : Ptr -> list Ptr) : Host :=
  mkHost (FindObject_UWorld h) (FindObject_ULevel h) (FindObject_AActor h)
         (GetName h) (GetUniqueID h) (PersistentLevel h) (GetLevels h)
         (Actors h) g (IsSceneComponent h) (GetAttachParent h) (GetWorld h)
         (GetLevel h) (GetOwner h) (Indeterminate h).

(** [parents] are the attach parents of [c], nearest first, up to the
    root. *)
Fixpoint attach_chain (h : Host) (c : Ptr) (parents : list Ptr) : Prop :=
  match parents with
  | [] => GetAttachParent h c = None
  | p :: parents' => GetAttachParent h c = Some p /\ attach_chain h p parents'
  end.

(** ** [URepr.h]

    The [Repr] templates, without the two floating-point ones and the
    [FName] and [FText] ones (which only call the engine).  The template
    that is selected by the type of the argument is a type class. *)

(** [%lld] and [%llu]: as [%d], a 64-bit number having at most twenty
    digits. *)
Definition printf_lld (n : Z) : string :=
  if (n <? 0)%Z then String "-" (digits_of 20 (- n) "")
  else digits_of 20 n "".

Class HasRepr (T : Type) : Type := Repr : T -> string.

Definition Repr_int8 (Value : Z) : string := printf_d Value ++ "_i8".
Definition Repr_int16 (Value : Z) : string := printf_d Value ++ "_i16".
Definition Repr_int64 (Value : Z) : string := printf_lld Value ++ "_i64".
Definition Repr_uint8 (Value : Z) : string := printf_d Value ++ "_u8".
Definition Repr_uint16 (Value : Z) : string := printf_d Value ++ "_u16".
Definition Repr_uint32 (Value : Z) : string := printf_d Value ++ "_u32".
Definition Repr_uint64 (Value : Z) : string := printf_lld Value ++ "_u64".

(** An [int32] is a [Z] throughout, so [Z] selects the [int32] template. *)
#[export] Instance Repr_int32 : HasRepr Z :=
  fun Value => printf_d Value ++ "_i32".

#[export] Instance Repr_bool : HasRepr bool :=
  fun Value => if Value then "true" else "false".

(** The double-quote character, written by its code. *)
Definition quote : ascii := "034"%char.

#[export] Instance Repr_FString : HasRepr string :=
  fun Value => String quote (Value ++ String quote "").

#[export] Instance Repr_TPair (T U : Type) `{HasRepr T} `{HasRepr U}
  : HasRepr (T * U) :=
  fun Pair => "(" ++ Repr (fst Pair) ++ ", " ++ Repr (snd Pair) ++ ")".

(** The four loops of the file ([TArray], [TSet], [TMap], tuple) have one
    shape: append the text of the element, then [", "] unless the element
    is the last one ([i < Num() - 1]). *)
Fixpoint separated_loop (T : Type) (text : T -> string) (elements : list T)
    (Result : string) : string :=
  match elements with
  | [] => Result
  | x :: rest =>
      let Result := Result ++ text x in
      let Result :=
        match rest with
        | [] => Result
        | _ :: _ => Result ++ ", "
        end in
      separated_loop T text rest Result
  end.

#[export] Instance Repr_TArray (T : Type) `{HasRepr T} : HasRepr (list T) :=
  fun Array => separated_loop T Repr Array "[" ++ "]".

(** A [TSet] and a [TMap] are given by the sequence in which the
    range-based [for] enumerates them. *)
Inductive TSet (T : Type) : Type := SetOf (elements : list T).
Inductive TMap (K V : Type) : Type := MapOf (pairs : list (K * V)).

#[export] Instance Repr_TSet (T : Type) `{HasRepr T} : HasRepr (TSet T) :=
  fun Set_ =>
    match Set_ with
    | SetOf _ elements => separated_loop T Repr elements "{" ++ "}"
    end.

#[export] Instance Repr_TMap (K V : Type) `{HasRepr K} `{HasRepr V}
  : HasRepr (TMap K V) :=
  fun Map =>
    match Map with
    | MapOf _ _ pairs =>
        separated_loop (K * V)
          (fun Pair => Repr (fst Pair) ++ ": " ++ Repr (snd Pair))
          pairs "{" ++ "}"
    end.

#[export] Instance Repr_TOptional (T : Type) `{HasRepr T}
  : HasRepr (option T) :=
  fun Optional =>
    match Optional with
    | Some Value => "Some(" ++ Repr Value ++ ")"
    | None => "None"
    end.

(** [ReprTupleImpl], from the array [Elements] of the texts of the
    members, and [Repr] of a tuple. *)
Definition ReprTupleImpl (Elements : list string) : string :=
  separated_loop string (fun Element => Element) Elements "".

Definition Repr_TTuple (Elements : list string) : string :=
  "(" ++ ReprTupleImpl Elements ++ ")".

(** ** [UCallStack.cpp]

    [FPlatformStackWalk::GetStack(1, 1, nullptr)] is the engine's; its
    result, an array of at most one frame, is the argument. *)

Record FProgramCounterSymbolInfo : Type := mkSymbolInfo {
  Filename : string;
  FunctionName : string;
  LineNumber : Z
}.

(** [FString::Left(Count)] keeps the first [Count] characters, [Count]
    being clamped to the length; [LeftChop(Count)] is
    [Left(Len() - Count)]. *)
Definition Left (Count : Z) (s : string) : string :=
  substring 0 (Z.to_nat Count) s.

Definition LeftChop (Count : Z) (s : string) : string :=
  Left (Z.of_nat (String.length s) - Count) s.

Definition GetCallerName (CurrentInfo : list FProgramCounterSymbolInfo)
    : string :=
  match CurrentInfo with
  | [] => "[unknown]"
  | info :: _ =>
      let CallerInfo := FunctionName info in
      LeftChop 2 CallerInfo
  end.

Definition GetCallerInfo (CurrentInfo : list FProgramCounterSymbolInfo)
    : string :=
  match CurrentInfo with
  | [] => "[unknown]"
  | info :: _ =>
      let CallerFile := Filename info in
      let CallerInfo := FunctionName info in
      let CallerNameSanitized := LeftChop 2 CallerInfo in
      let CallerLine := printf_d (LineNumber info) in
      CallerFile ++ "@" ++ CallerNameSanitized ++ ":" ++ CallerLine
  end.

(** * Properties *)

(** ** Strings and [int32] arithmetic *)

Lemma append_nil_r (s : string) : s ++ "" = s.
Proof. induction s as [|c s IH]; simpl; [reflexivity | now rewrite IH]. Qed.

Lemma append_assoc (a b c : string) : (a ++ b) ++ c = a ++ b ++ c.
Proof. induction a as [|x a IH]; simpl; [reflexivity | now rewrite IH]. Qed.

Lemma wrap32_mod (a : Z) : wrap32 a mod 2 ^ 32 = a mod 2 ^ 32.
Proof.
  unfold wrap32. rewrite Zminus_mod_idemp_l. f_equal. lia.
Qed.

Lemma wrap32_congr (a b : Z) :
  a mod 2 ^ 32 = b mod 2 ^ 32 -> wrap32 a = wrap32 b.
Proof.
  intros H. unfold wrap32.
  rewrite (Zplus_mod a), H, <- Zplus_mod. reflexivity.
Qed.

Lemma wrap32_step (a d : Z) :
  wrap32 (wrap32 (wrap32 a * 10) + d) = wrap32 (a * 10 + d).
Proof.
  apply wrap32_congr.
  rewrite Zplus_mod, wrap32_mod, (Zmult_mod (wrap32 a)), wrap32_mod.
  rewrite <- Zmult_mod, <- Zplus_mod. reflexivity.
Qed.

Lemma wrap32_id (z : Z) : in_int32 z -> wrap32 z = z.
Proof.
  unfold in_int32, wrap32. intros H. rewrite Z.mod_small; lia.
Qed.

Lemma wrap32_range (z : Z) : in_int32 (wrap32 z).
Proof.
  unfold in_int32, wrap32.
  pose proof (Z.mod_pos_bound (z + 2 ^ 31) (2 ^ 32)). lia.
Qed.

(** ** [TryParseInt] *)

Lemma is_digit_test (c : ascii) :
  is_digit c = true -> (code c <? code "0")%Z || (code c >? code "9")%Z = false.
Proof. unfold is_digit. intros H. now apply negb_true_iff in H. Qed.

Lemma TryParseInt_from_value (s : string) :
  forall acc acc', digits_only s = true -> acc = wrap32 acc' ->
  TryParseInt_from s acc = Some (wrap32 (decimal_from s acc')).
Proof.
  induction s as [|c s IH]; intros acc acc' Hd Hacc.
  - subst acc. reflexivity.
  - cbn [TryParseInt_from decimal_from]. simpl in Hd. apply andb_true_iff in Hd as [Hc Hs].
    rewrite (is_digit_test c Hc).
    apply IH; [exact Hs|].
    rewrite Hacc. apply wrap32_step.
Qed.

Lemma TryParseInt_value (s : string) :
  digits_only s = true -> TryParseInt s = Some (wrap32 (decimal_value s)).
Proof.
  intros H. unfold TryParseInt, decimal_value.
  now apply TryParseInt_from_value.
Qed.

Lemma TryParseInt_from_non_digit (s : string) :
  forall acc, digits_only s = false -> TryParseInt_from s acc = None.
Proof.
  induction s as [|c s IH]; intros acc Hd;
    cbn [digits_only forallb_string TryParseInt_from] in *.
  - discriminate.
  - unfold is_digit in Hd.
    destruct ((code c <? code "0")%Z || (code c >? code "9")%Z);
      cbn [negb andb] in Hd.
    + reflexivity.
    + now apply IH.
Qed.

Lemma TryParseInt_from_range (s : string) :
  forall acc v, in_int32 acc -> TryParseInt_from s acc = Some v -> in_int32 v.
Proof.
  induction s as [|c s IH]; intros acc v Hacc H;
    cbn [TryParseInt_from] in H.
  - now inversion H; subst.
  - destruct ((code c <? code "0")%Z || (code c >? code "9")%Z);
      [discriminate|].
    eapply IH; [|exact H]. apply wrap32_range.
Qed.

Lemma TryParseInt_range (s : string) (v : Z) :
  TryParseInt s = Some v -> in_int32 v.
Proof.
  apply TryParseInt_from_range. unfold in_int32. lia.
Qed.

(** C10. [TryParseInt] has no overflow check: on every digit-only string it
    succeeds and returns the decimal value reduced modulo [2^32] and read
    as a signed 32-bit number; the digit string ["3000000000"], whose value
    is at least [2^31], makes a successful [TryParse] store a negative
    level index. *)
Theorem TryParseInt_wraps_modulo :
  (forall s : string, digits_only s = true ->
     TryParseInt s = Some (wrap32 (decimal_value s))
     /\ wrap32 (decimal_value s) mod 2 ^ 32 = decimal_value s mod 2 ^ 32
     /\ in_int32 (wrap32 (decimal_value s)))
  /\ digits_only "3000000000" = true
  /\ 2 ^ 31 <= decimal_value "3000000000"
  /\ TryParseInt "3000000000" = Some (-1294967296)
  /\ TryParse "W@L[3000000000]:/A[0]"
     = ParseOk (mkPath "W" "L" (-1294967296) "A" 0 [] [])
  /\ LevelIndex (mkPath "W" "L" (-1294967296) "A" 0 [] []) < 0.
Proof.
  split.
  - intros s Hs. split; [|split].
    + now apply TryParseInt_value.
    + apply wrap32_mod.
    + apply wrap32_range.
  - repeat split; try reflexivity; vm_compute; congruence.
Qed.

Lemma TryParseInt_wraps_modulo_witness :
  digits_only "4294967301" = true
  /\ TryParseInt "4294967301" = Some (wrap32 (decimal_value "4294967301"))
  /\ wrap32 (decimal_value "4294967301") = 5.
Proof.
  split; [reflexivity|]. split; [|reflexivity].
  apply (proj1 TryParseInt_wraps_modulo "4294967301"). reflexivity.
Defined.

(** ** The loop of [TryParse] over runs on which it does not act *)

Lemma body_inert (c : ascii) (next : option ascii) (l : Loc.t) :
  acts (Loc.CurrentFillingMode l) c next = false -> Loc.SkipNext l = false ->
  body c next l = Next (fill c l).
Proof.
  destruct l as [wn ln li an ai cn ci ws ls acs cs lis ais cis m sk].
  cbn [Loc.CurrentFillingMode Loc.SkipNext]. intros H ->.
  unfold acts, is_pair in H. unfold body.
  cbn [Loc.CurrentFillingMode Loc.SkipNext].
  destruct (Ascii.eqb c "@"); [discriminate H|].
  destruct (Ascii.eqb c ":" && next_is next "/"); [discriminate H|].
  destruct (Ascii.eqb c "-" && next_is next ">"); [discriminate H|].
  cbn [orb] in H.
  destruct m; cbn [Fill.eqb andb];
    destruct (Ascii.eqb c "["); try discriminate H;
    destruct (Ascii.eqb c "]"); try discriminate H;
    destruct (Ascii.eqb c "/"); try discriminate H; reflexivity.
Qed.

Lemma fill_SkipNext (c : ascii) (l : Loc.t) :
  Loc.SkipNext (fill c l) = Loc.SkipNext l.
Proof. destruct l as [? ? ? ? ? ? ? ? ? ? ? ? ? ? [] ?]; reflexivity. Qed.

Lemma fill_mode (c : ascii) (l : Loc.t) :
  Loc.CurrentFillingMode (fill c l) = Loc.CurrentFillingMode l.
Proof. destruct l as [? ? ? ? ? ? ? ? ? ? ? ? ? ? [] ?]; reflexivity. Qed.

Lemma append_current_nil (l : Loc.t) : append_current "" l = l.
Proof.
  destruct l as [? ? ? ? ? ? ? ? ? ? ? ? ? ? [] ?];
    unfold append_current; cbn; now rewrite append_nil_r.
Qed.

Lemma append_current_fill (c : ascii) (seg : string) (l : Loc.t) :
  append_current seg (fill c l) = append_current (String c seg) l.
Proof.
  destruct l as [? ? ? ? ? ? ? ? ? ? ? ? ? ? [] ?];
    unfold append_current, fill; cbn; unfold push;
    now rewrite append_assoc.
Qed.

Lemma peek_append (seg rest : string) :
  peek (seg ++ rest) = peek_or seg (peek rest).
Proof. destruct seg; reflexivity. Qed.

Lemma loop_inert (seg rest : string) :
  forall l,
  inert (Loc.CurrentFillingMode l) seg (peek rest) = true ->
  Loc.SkipNext l = false ->
  loop (seg ++ rest) l = loop rest (append_current seg l).
Proof.
  induction seg as [|c seg IH]; intros l Hi Hs.
  - now rewrite append_current_nil.
  - cbn [inert] in Hi. apply andb_true_iff in Hi as [Hc Hi].
    apply negb_true_iff in Hc.
    cbn [append loop]. rewrite peek_append, (body_inert c _ l Hc Hs).
    rewrite IH;
      [|now rewrite fill_mode|now rewrite fill_SkipNext].
    now rewrite append_current_fill.
Qed.

Lemma plain_inert (m : Fill.ECurrentFillingMode) (seg : string)
    (after : option ascii) :
  plain seg = true -> inert m seg after = true.
Proof.
  induction seg as [|c seg IH]; intros H; [reflexivity|].
  cbn [plain forallb_string] in H. apply andb_true_iff in H as [Hc Hs].
  cbn [inert]. rewrite (IH Hs), andb_true_r.
  apply negb_true_iff in Hc. unfold is_delimiter in Hc.
  repeat (apply orb_false_iff in Hc; destruct Hc as [Hc ?]).
  unfold acts, is_pair.
  repeat match goal with
         | E : Ascii.eqb c _ = false |- _ => rewrite E; clear E
         end.
  now destruct m.
Qed.

Lemma lacks_push (d c : ascii) (s : string) :
  lacks d (push s c) = lacks d s && negb (Ascii.eqb c d).
Proof.
  unfold lacks, push. induction s as [|x s IH]; cbn.
  - now rewrite andb_true_r.
  - now rewrite IH, andb_assoc.
Qed.

(** A name without ["@"], [":/"] and ["->"] (and without ["["] unless it
    is read in mode [World]) is inert where the canonical syntax puts it:
    before ["@"] or before ["["]. *)
Lemma name_inert (m : Fill.ECurrentFillingMode) (s : string) (after : ascii) :
  lacks "@" s = true -> no_pair s = true ->
  match m with
  | Fill.World => True
  | Fill.Level | Fill.Actor => lacks "[" s = true
  | _ => False
  end ->
  Ascii.eqb after "/" = false -> Ascii.eqb after ">" = false ->
  inert m s (Some after) = true.
Proof.
  intros Hat Hp Hm H1 H2.
  assert (lacks "[" s = true \/ m = Fill.World) as Hb
    by (destruct m; tauto).
  assert (m = Fill.World \/ m = Fill.Level \/ m = Fill.Actor) as Hm'
    by (destruct m; tauto).
  clear Hm.
  induction s as [|c s IH]; [reflexivity|].
  unfold lacks in Hat. cbn [forallb_string] in Hat.
  apply andb_true_iff in Hat as [Hc Hat]. apply negb_true_iff in Hc.
  cbn [no_pair] in Hp. apply andb_true_iff in Hp as [Hp1 Hp].
  apply negb_true_iff in Hp1.
  assert (is_pair c (peek_or s (Some after)) = false) as Hpair.
  { destruct s as [|d s]; [|exact Hp1].
    cbn [peek_or]. unfold is_pair. cbn [next_is].
    now rewrite H1, H2, !andb_false_r. }
  cbn [inert]. rewrite IH.
  - rewrite andb_true_r. apply negb_true_iff.
    unfold acts. rewrite Hc, Hpair. cbn [orb].
    destruct Hb as [Hb| ->]; [|reflexivity].
    unfold lacks in Hb. cbn [forallb_string] in Hb.
    apply andb_true_iff in Hb as [Hb _]. apply negb_true_iff in Hb.
    rewrite Hb. destruct Hm' as [->|[->| ->]]; reflexivity.
  - exact Hat.
  - exact Hp.
  - destruct Hb as [Hb|Hb]; [left|now right].
    unfold lacks in Hb. cbn [forallb_string] in Hb.
    now apply andb_true_iff in Hb as [_ Hb].
Qed.

(** ** [%d] and [TryParseInt] *)

Lemma digit_char_code (d : Z) :
  0 <= d < 10 -> is_digit (digit_char d) = true /\ code (digit_char d) = 48 + d.
Proof.
  intros H.
  assert (d = 0 \/ d = 1 \/ d = 2 \/ d = 3 \/ d = 4 \/ d = 5 \/ d = 6
          \/ d = 7 \/ d = 8 \/ d = 9) as Hd by lia.
  repeat (destruct Hd as [Hd|Hd]; [subst d; split; reflexivity|]).
  subst d; split; reflexivity.
Qed.

Lemma digits_only_digits_of (fuel : nat) :
  forall n acc, 0 <= n -> digits_only acc = true ->
  digits_only (digits_of fuel n acc) = true.
Proof.
  induction fuel as [|fuel IH]; intros n acc Hn Hacc; cbn [digits_of].
  - exact Hacc.
  - assert (digits_only (String (digit_char (n mod 10)) acc) = true) as Hc.
    { cbn [digits_only forallb_string].
      destruct (digit_char_code (n mod 10)) as [Hd _];
        [apply Z.mod_pos_bound; lia|].
      rewrite Hd. exact Hacc. }
    destruct (n <? 10)%Z; [exact Hc|].
    apply IH; [apply Z.div_pos; lia | exact Hc].
Qed.

Lemma decimal_from_digits_of (fuel : nat) :
  forall n acc, 0 <= n < 10 ^ Z.of_nat fuel ->
  decimal_from (digits_of fuel n acc) 0 = decimal_from acc n.
Proof.
  induction fuel as [|fuel IH]; intros n acc Hn.
  - cbn [digits_of]. change (10 ^ Z.of_nat 0) with 1 in Hn.
    replace n with 0 by lia. reflexivity.
  - cbn [digits_of].
    destruct (digit_char_code (n mod 10)) as [_ Hd];
      [apply Z.mod_pos_bound; lia|].
    destruct (Z.ltb_spec n 10) as [Hlt|Hge].
    + cbn [decimal_from]. rewrite Hd. rewrite Z.mod_small by lia.
      f_equal. change (code "0") with 48. lia.
    + rewrite IH.
      * cbn [decimal_from]. rewrite Hd. f_equal.
        change (code "0") with 48.
        pose proof (Z.div_mod n 10). lia.
      * rewrite Nat2Z.inj_succ, Z.pow_succ_r in Hn by lia.
        split; [apply Z.div_pos; lia|].
        apply Z.div_lt_upper_bound; lia.
Qed.

Lemma printf_d_digits (n : Z) : 0 <= n -> digits_only (printf_d n) = true.
Proof.
  intros Hn. unfold printf_d.
  destruct (Z.ltb_spec n 0); [lia|].
  now apply digits_only_digits_of.
Qed.

Lemma printf_d_value (n : Z) :
  0 <= n < 2 ^ 31 -> decimal_value (printf_d n) = n.
Proof.
  intros Hn. unfold printf_d, decimal_value.
  destruct (Z.ltb_spec n 0); [lia|].
  rewrite decimal_from_digits_of; [reflexivity|].
  change (10 ^ Z.of_nat 10) with 10000000000. lia.
Qed.

Lemma TryParseInt_printf_d (n : Z) :
  0 <= n < 2 ^ 31 -> TryParseInt (printf_d n) = Some n.
Proof.
  intros Hn.
  rewrite TryParseInt_value by (apply printf_d_digits; lia).
  rewrite printf_d_value by exact Hn.
  rewrite wrap32_id; [reflexivity|]. unfold in_int32. lia.
Qed.

Lemma is_digit_not_delimiter (c : ascii) :
  is_digit c = true -> is_delimiter c = false.
Proof.
  intros H. unfold is_delimiter.
  repeat match goal with
         | |- context [Ascii.eqb c ?d] =>
             destruct (Ascii.eqb_spec c d) as [->|_];
             [vm_compute in H; discriminate|]
         end.
  reflexivity.
Qed.

Lemma digits_only_plain (s : string) : digits_only s = true -> plain s = true.
Proof.
  induction s as [|c s IH]; intros H; [reflexivity|].
  cbn [digits_only forallb_string] in H. apply andb_true_iff in H as [Hc Hs].
  cbn [plain forallb_string].
  rewrite (is_digit_not_delimiter c Hc). now apply IH.
Qed.

(** ** Whole paths of the canonical shape *)

#[local] Arguments printf_d : simpl never.
#[local] Arguments TryParseInt : simpl never.

(** One run on which the loop does not act, then the delimiters behind it. *)
Ltac run :=
  rewrite loop_inert
    by (cbn; first [reflexivity | assumption | apply plain_inert; assumption]);
  cbn.

Lemma TryParseInt_index_of_text (s : string) :
  digits_only s = true -> TryParseInt s = Some (index_of_text s).
Proof. apply TryParseInt_value. Qed.

Lemma TryParseInt_non_digit (s : string) :
  digits_only s = false -> TryParseInt s = None.
Proof. apply TryParseInt_from_non_digit. Qed.

(** The loop over ["<W>@<L>[<li>]:/<A>[<ai>]"], from the initial locals. *)
Lemma loop_actor_prefix (W L A li ai tail : string) :
  inert Fill.World W (Some "@"%char) = true ->
  inert Fill.Level L (Some "["%char) = true ->
  inert Fill.Actor A (Some "["%char) = true ->
  digits_only li = true -> digits_only ai = true ->
  loop (W ++ "@" ++ L ++ "[" ++ li ++ "]:/" ++ A ++ "[" ++ ai ++ "]" ++ tail)
       Loc.init
  = loop tail
      (Loc.mk W L (index_of_text li) A (index_of_text ai) [] []
              W L A "" li ai "" Fill.Actor false).
Proof.
  intros HW HL HA Dli Dai.
  pose proof (digits_only_plain li Dli) as Pli.
  pose proof (digits_only_plain ai Dai) as Pai.
  unfold Loc.init.
  run. run. run.
  rewrite (TryParseInt_index_of_text li Dli). cbn.
  run. run.
  rewrite (TryParseInt_index_of_text ai Dai). reflexivity.
Qed.

(** The loop over component steps closed by ["/"], in mode [Component] with
    nothing pending. *)
Lemma loop_steps (steps : list (string * string)) (tail : string) :
  forall wn ln li an ai cn ci ws ls acs lis ais,
  forallb good_step steps = true ->
  loop (steps_text steps tail)
       (Loc.mk wn ln li an ai cn ci ws ls acs "" lis ais "" Fill.Component false)
  = loop tail
      (Loc.mk wn ln li an ai
              (cn ++ map fst steps)
              (ci ++ map (fun step => index_of_text (snd step)) steps)
              ws ls acs "" lis ais "" Fill.Component false).
Proof.
  induction steps as [|[N I] steps IH]; intros wn ln li an ai cn ci ws ls acs
    lis ais Hg.
  - cbn [steps_text map]. now rewrite !app_nil_r.
  - cbn [forallb] in Hg. apply andb_true_iff in Hg as [Hs Hg].
    unfold good_step in Hs. cbn [fst snd] in Hs.
    apply andb_true_iff in Hs as [PN DI].
    pose proof (digits_only_plain I DI) as PI.
    cbn [steps_text fst snd].
    run. run.
    rewrite (TryParseInt_index_of_text I DI). cbn.
    rewrite IH by exact Hg.
    cbn [map fst snd]. now rewrite <- !app_assoc.
Qed.

Lemma index_of_text_printf_d (n : Z) :
  0 <= n < 2 ^ 31 -> index_of_text (printf_d n) = n.
Proof.
  intros Hn. unfold index_of_text. rewrite printf_d_value by exact Hn.
  apply wrap32_id. unfold in_int32. lia.
Qed.

Lemma TryParse_actor_path (W L A : string) (li ai : Z) :
  lacks "@" W = true -> lacks "@" L = true -> lacks "@" A = true ->
  lacks "[" L = true -> lacks "[" A = true ->
  no_pair W = true -> no_pair L = true -> no_pair A = true ->
  IsEmpty W = false -> IsEmpty L = false -> IsEmpty A = false ->
  0 <= li < 2 ^ 31 -> 0 <= ai < 2 ^ 31 ->
  TryParse (Printf_path W L li A ai "") = ParseOk (mkPath W L li A ai [] []).
Proof.
  intros AW AL AA BL BA PW PL PA EW EL EA Hli Hai.
  unfold TryParse, Printf_path.
  rewrite loop_actor_prefix;
    [| now apply name_inert | now apply name_inert | now apply name_inert
     | apply printf_d_digits; lia | apply printf_d_digits; lia].
  cbn. rewrite EW, EL, EA. cbn.
  now rewrite !index_of_text_printf_d by assumption.
Qed.

(** ** What a successful [TryParse] guarantees *)

Lemma body_indices_in_range (c : ascii) (next : option ascii) (l l' : Loc.t) :
  indices_in_range l -> body c next l = Next l' -> indices_in_range l'.
Proof.
  unfold indices_in_range.
  destruct l as [wn ln li an ai cn ci ws ls acs cs lis ais cis m sk].
  cbn [Loc.LevelIndexNumber Loc.ActorIndexNumber].
  intros [Hl Ha] H. unfold body in H. cbn in H.
  repeat match type of H with
         | context [if ?b then _ else _] => destruct b; cbn in H
         | context [match TryParseInt ?x with _ => _ end] =>
             let E := fresh "E" in
             destruct (TryParseInt x) eqn:E; cbn in H
         end;
    try discriminate;
    try (injection H as <-; cbn; split;
         first [assumption | eapply TryParseInt_range; eassumption]).
  destruct m; injection H as <-; cbn; split; assumption.
Qed.

Lemma loop_indices_in_range (Path : string) :
  forall l l', indices_in_range l -> loop Path l = Next l' ->
  indices_in_range l'.
Proof.
  induction Path as [|c Path IH]; intros l l' Hl H; cbn [loop] in H.
  - now injection H as <-.
  - destruct (body c (peek Path) l) as [l1|e] eqn:E; [|discriminate].
    eapply IH; [|exact H]. eapply body_indices_in_range; eassumption.
Qed.

#[local] Arguments push : simpl never.
#[local] Arguments lacks : simpl never.

Lemma body_names_clean (c : ascii) (next : option ascii) (l l' : Loc.t) :
  names_clean l -> body c next l = Next l' -> names_clean l'.
Proof.
  unfold names_clean.
  destruct l as [wn ln li an ai cn ci ws ls acs cs lis ais cis m sk].
  cbn [Loc.WorldSection Loc.LevelSection Loc.ActorSection Loc.WorldName
       Loc.LevelName Loc.ActorName].
  intros (H1 & H2 & H3 & H4 & H5 & H6 & H7 & H8 & H9 & H10) H.
  unfold body in H.
  destruct sk; cbn in H; [injection H as <-; cbn; tauto|].
  destruct (Ascii.eqb c "@") eqn:Eat; cbn in H;
    [injection H as <-; cbn; tauto|].
  destruct (Ascii.eqb c "[") eqn:Eb; destruct m; cbn in H;
    repeat match type of H with
           | context [if ?b then _ else _] => destruct b; cbn in H
           | context [match TryParseInt ?x with _ => _ end] =>
               destruct (TryParseInt x); cbn in H
           end;
    try discriminate; injection H as <-; cbn;
    repeat split;
    first [ assumption
          | rewrite lacks_push; apply andb_true_iff; split;
            [assumption | rewrite ?Eat, ?Eb; reflexivity] ].
Qed.

Lemma loop_names_clean (Path : string) :
  forall l l', names_clean l -> loop Path l = Next l' -> names_clean l'.
Proof.
  induction Path as [|c Path IH]; intros l l' Hl H; cbn [loop] in H.
  - now injection H as <-.
  - destruct (body c (peek Path) l) as [l1|e] eqn:E; [|discriminate].
    eapply IH; [|exact H]. eapply body_names_clean; eassumption.
Qed.

Lemma peek_or_push (s : string) (c : ascii) (after : option ascii) :
  peek_or (push s c) after = peek_or s (Some c).
Proof. destruct s; reflexivity. Qed.

Lemma no_pair_before_push (s : string) (c : ascii) (after : option ascii) :
  no_pair_before (push s c) after
  = no_pair_before s (Some c) && negb (is_pair c after).
Proof.
  induction s as [|x s IH].
  - unfold push. cbn [append no_pair_before peek_or andb].
    now rewrite andb_true_r.
  - change (push (String x s) c) with (String x (push s c)).
    cbn [no_pair_before]. now rewrite peek_or_push, IH, andb_assoc.
Qed.

Lemma is_pair_none (c : ascii) : is_pair c None = false.
Proof. unfold is_pair. cbn [next_is]. now rewrite !andb_false_r. Qed.

Lemma no_pair_before_weaken (s : string) (after : option ascii) :
  no_pair_before s after = true -> no_pair s = true.
Proof.
  induction s as [|x s IH]; intros H; [reflexivity|].
  cbn [no_pair_before] in H. apply andb_true_iff in H as [Hx Hs].
  cbn [no_pair]. rewrite (IH Hs), andb_true_r.
  destruct s as [|y s]; [|exact Hx].
  cbn [peek]. now rewrite is_pair_none.
Qed.

Lemma body_world_clean (c : ascii) (next : option ascii) (l l' : Loc.t) :
  world_clean l (Some c) -> body c next l = Next l' -> world_clean l' next.
Proof.
  unfold world_clean.
  destruct l as [wn ln li an ai cn ci ws ls acs cs lis ais cis m sk].
  cbn [Loc.WorldName Loc.WorldSection Loc.CurrentFillingMode Loc.SkipNext].
  intros [Hn Hs] H.
  assert (no_pair ws = true) as Hws.
  { destruct m; try exact Hs.
    destruct Hs as [Hs _]. now apply no_pair_before_weaken in Hs. }
  unfold body in H.
  destruct sk; cbn in H.
  { injection H as <-. cbn. destruct m; [destruct Hs; discriminate|..];
      split; assumption. }
  change (Ascii.eqb c ":" && next_is next "/"
          || Ascii.eqb c "-" && next_is next ">")
    with (is_pair c next) in *.
  destruct (Ascii.eqb c "@"); cbn in H;
    [injection H as <-; cbn; split; assumption|].
  destruct (Ascii.eqb c ":" && next_is next "/") eqn:E1; cbn in H.
  { destruct (TryParseInt lis); [|discriminate].
    injection H as <-. cbn. split; assumption. }
  destruct (Ascii.eqb c "-" && next_is next ">") eqn:E2; cbn in H;
    [injection H as <-; cbn; split; assumption|].
  assert (is_pair c next = false) as Hpair
    by (unfold is_pair; now rewrite E1, E2).
  destruct m; cbn in H; rewrite ?andb_false_r, ?andb_true_r in H; cbn in H;
    repeat match type of H with
           | context [if ?b then _ else _] => destruct b; cbn in H
           | context [match TryParseInt ?x with _ => _ end] =>
               destruct (TryParseInt x); cbn in H
           end;
    try discriminate; injection H as <-; cbn;
    try (split; assumption).
  destruct Hs as [Hs _]. split; [assumption|]. split; [|reflexivity].
  now rewrite no_pair_before_push, Hs, Hpair.
Qed.

Lemma loop_world_clean (Path : string) :
  forall l l', world_clean l (peek Path) -> loop Path l = Next l' ->
  no_pair (Loc.WorldName l') = true.
Proof.
  induction Path as [|c Path IH]; intros l l' Hl H; cbn [loop] in H.
  - injection H as <-. exact (proj1 Hl).
  - destruct (body c (peek Path) l) as [l1|e] eqn:E; [|discriminate].
    eapply IH; [|exact H]. eapply body_world_clean; eassumption.
Qed.

Lemma TryParse_ok (Path : string) (r : FPathStructure) :
  TryParse Path = ParseOk r ->
  IsEmpty (WorldName r) = false /\ IsEmpty (LevelName r) = false
  /\ IsEmpty (ActorName r) = false
  /\ in_int32 (LevelIndex r) /\ in_int32 (ActorIndex r)
  /\ List.length (ComponentNames r) = List.length (ComponentIndices r).
Proof.
  unfold TryParse. intros H.
  destruct (loop Path Loc.init) as [l|e] eqn:E; [|discriminate].
  assert (indices_in_range l) as [Hl Ha].
  { eapply loop_indices_in_range; [|exact E].
    split; cbn; unfold in_int32; lia. }
  destruct (IsEmpty (Loc.WorldName l)) eqn:EW; [discriminate|].
  destruct (IsEmpty (Loc.LevelName l)) eqn:EL; [discriminate|].
  destruct (IsEmpty (Loc.ActorName l)) eqn:EA; [discriminate|].
  cbn [orb] in H.
  destruct (Nat.eqb_spec (List.length (Loc.ComponentNames l))
                         (List.length (Loc.ComponentIndices l))) as [EN|];
    [|discriminate].
  cbn [negb] in H. injection H as <-. cbn. tauto.
Qed.

Lemma TryParse_ok_names (Path : string) (r : FPathStructure) :
  TryParse Path = ParseOk r ->
  lacks "@" (WorldName r) = true /\ lacks "@" (LevelName r) = true
  /\ lacks "@" (ActorName r) = true
  /\ lacks "[" (LevelName r) = true /\ lacks "[" (ActorName r) = true
  /\ no_pair (WorldName r) = true.
Proof.
  unfold TryParse. intros H.
  destruct (loop Path Loc.init) as [l|e] eqn:E; [|discriminate].
  assert (names_clean l) as Hc.
  { eapply loop_names_clean; [|exact E].
    unfold names_clean. cbn. tauto. }
  assert (no_pair (Loc.WorldName l) = true) as Hw.
  { eapply loop_world_clean; [|exact E].
    unfold world_clean. cbn. tauto. }
  destruct (IsEmpty (Loc.WorldName l) || IsEmpty (Loc.LevelName l)
            || IsEmpty (Loc.ActorName l)); [discriminate|].
  destruct (negb (Nat.eqb (List.length (Loc.ComponentNames l))
                          (List.length (Loc.ComponentIndices l))));
    [discriminate|].
  injection H as <-. cbn. unfold names_clean in Hc. tauto.
Qed.

(** ** The parser: claims *)

(** C9. An index buffer that is empty when it is committed is accepted and
    stored as 0: [TryParseInt] of the empty string is 0; this holds at each
    of the three places where the loop commits an index (level at [":/"],
    actor at ["]"], component at ["/"]), hence for every path of the
    canonical shape with empty brackets; and ["W@L[]:/A[0]->C[0]"] parses
    with level index 0. *)
Theorem empty_index_is_zero :
  TryParseInt "" = Some 0
  /\ (forall l, Loc.SkipNext l = false -> Loc.LevelIndexSection l = "" ->
      exists l', body ":" (Some "/"%char) l = Next l'
                 /\ Loc.LevelIndexNumber l' = 0)
  /\ (forall l next, Loc.SkipNext l = false ->
      Loc.CurrentFillingMode l = Fill.ActorIdx ->
      Loc.ActorIndexSection l = "" ->
      exists l', body "]" next l = Next l' /\ Loc.ActorIndexNumber l' = 0)
  /\ (forall l next, Loc.SkipNext l = false ->
      Loc.CurrentFillingMode l = Fill.Component ->
      Loc.ComponentIndexSection l = "" ->
      exists l', body "/" next l = Next l'
                 /\ Loc.ComponentIndices l' = (Loc.ComponentIndices l ++ [0])%list)
  /\ (forall W L A C, plain W = true -> plain L = true -> plain A = true ->
      plain C = true ->
      IsEmpty W = false -> IsEmpty L = false -> IsEmpty A = false ->
      TryParse (W ++ "@" ++ L ++ "[]:/" ++ A ++ "[]->" ++ C ++ "[]/")
      = ParseOk (mkPath W L 0 A 0 [C] [0]))
  /\ exists r, TryParse "W@L[]:/A[0]->C[0]" = ParseOk r /\ LevelIndex r = 0.
Proof.
  split; [reflexivity|].
  split; [|split; [|split; [|split]]].
  - intros [wn ln li an ai cn ci ws ls acs cs lis ais cis m sk]. cbn.
    intros -> ->. eexists. split; reflexivity.
  - intros [wn ln li an ai cn ci ws ls acs cs lis ais cis m sk] next. cbn.
    intros -> -> ->. eexists. split; reflexivity.
  - intros [wn ln li an ai cn ci ws ls acs cs lis ais cis m sk] next. cbn.
    intros -> -> ->. eexists. split; reflexivity.
  - intros W L A C HW HL HA HC EW EL EA.
    unfold TryParse.
    change (W ++ "@" ++ L ++ "[]:/" ++ A ++ "[]->" ++ C ++ "[]/")
      with (W ++ "@" ++ L ++ "[" ++ "" ++ "]:/" ++ A ++ "[" ++ "" ++ "]"
            ++ "->" ++ C ++ "[]/").
    rewrite loop_actor_prefix
      by (first [reflexivity | apply plain_inert; assumption]).
    cbn. run.
    change (TryParseInt "") with (Some 0). cbn.
    rewrite EW, EL, EA. reflexivity.
  - eexists. split; reflexivity.
Qed.

Lemma empty_index_is_zero_witness :
  TryParse ("W" ++ "@" ++ "L" ++ "[]:/" ++ "A" ++ "[]->" ++ "C" ++ "[]/")
  = ParseOk (mkPath "W" "L" 0 "A" 0 ["C"] [0]).
Proof.
  apply (proj1 (proj2 (proj2 (proj2 (proj2 empty_index_is_zero)))));
    reflexivity.
Defined.

(** C1 (evaluation of the code). Nothing is committed at the end of the
    input: ["MyWorld@Main[0]:/Player[0]->Mesh[0]"] parses to a record
    without component steps, and so does every path of the canonical shape
    with one component step. *)
Theorem TryParse_drops_pending_step :
  TryParse "MyWorld@Main[0]:/Player[0]->Mesh[0]"
  = ParseOk (mkPath "MyWorld" "Main" 0 "Player" 0 [] [])
  /\ forall W L A C li ai ci,
     plain W = true -> plain L = true -> plain A = true -> plain C = true ->
     IsEmpty W = false -> IsEmpty L = false -> IsEmpty A = false ->
     IsEmpty C = false ->
     digits_only li = true -> digits_only ai = true ->
     digits_only ci = true ->
     TryParse (W ++ "@" ++ L ++ "[" ++ li ++ "]:/" ++ A ++ "[" ++ ai ++ "]"
               ++ "->" ++ C ++ "[" ++ ci ++ "]")
     = ParseOk (mkPath W L (index_of_text li) A (index_of_text ai) [] []).
Proof.
  split; [reflexivity|].
  intros W L A C li ai ci HW HL HA HC EW EL EA EC Dli Dai Dci.
  pose proof (digits_only_plain ci Dci) as Pci.
  unfold TryParse.
  rewrite loop_actor_prefix
    by (first [assumption | apply plain_inert; assumption]).
  cbn. run. run.
  rewrite EW, EL, EA. reflexivity.
Qed.

Lemma TryParse_drops_pending_step_witness :
  TryParse ("W" ++ "@" ++ "L" ++ "[" ++ "2" ++ "]:/" ++ "A" ++ "[" ++ "1" ++ "]"
            ++ "->" ++ "C1" ++ "[" ++ "3" ++ "]")
  = ParseOk (mkPath "W" "L" (index_of_text "2") "A" (index_of_text "1") [] []).
Proof.
  apply (proj2 TryParse_drops_pending_step); reflexivity.
Defined.

(** C2 (as amended). For every record produced by a successful [TryParse]
    that has no component step, whose level name and actor name contain
    neither [":/"] nor ["->"], and whose two indices are not negative,
    serializing it and parsing the text again succeeds and yields the same
    record. *)
Theorem roundtrip_without_steps (s : string) (r : FPathStructure) :
  TryParse s = ParseOk r ->
  ComponentNames r = [] ->
  no_pair (LevelName r) = true -> no_pair (ActorName r) = true ->
  0 <= LevelIndex r -> 0 <= ActorIndex r ->
  TryParse (format r) = ParseOk r.
Proof.
  intros Hs Hc HL HA Hli Hai.
  destruct (TryParse_ok s r Hs) as (EW & EL & EA & [_ Rl] & [_ Ra] & Hlen).
  destruct (TryParse_ok_names s r Hs) as (AW & AL & AA & BL & BA & HW).
  destruct r as [W L li A ai cn ci]. cbn in *. subst cn.
  destruct ci as [|? ?]; [|discriminate].
  unfold format. cbn.
  apply TryParse_actor_path; first [assumption | lia].
Qed.

Lemma roundtrip_without_steps_witness :
  TryParse (format (mkPath "My-World" "Main:1]" 12 "Player/2" 7 [] []))
  = ParseOk (mkPath "My-World" "Main:1]" 12 "Player/2" 7 [] []).
Proof.
  apply (roundtrip_without_steps "My-World@Main:1][012]:/Player/2[7]");
    first [reflexivity | cbn; lia].
Defined.

(** C2 (counterexamples). Three records that a successful [TryParse]
    produces and that do not survive serializing and parsing again: one
    with a component step, one whose level name was stitched together
    around an index into a text containing [":/"], and one whose level
    index overflowed to a negative number. *)
Lemma roundtrip_fails :
  (TryParse "W@L[0]:/A[0]->C[0]/" = ParseOk (mkPath "W" "L" 0 "A" 0 ["C"] [0])
   /\ format (mkPath "W" "L" 0 "A" 0 ["C"] [0]) = "W@L[0]:/A[0]->C[0]"
   /\ TryParse (format (mkPath "W" "L" 0 "A" 0 ["C"] [0]))
      <> ParseOk (mkPath "W" "L" 0 "A" 0 ["C"] [0]))
  /\ (TryParse "W@L:[0]/:/A[0]" = ParseOk (mkPath "W" "L:/" 0 "A" 0 [] [])
      /\ format (mkPath "W" "L:/" 0 "A" 0 [] []) = "W@L:/[0]:/A[0]"
      /\ TryParse (format (mkPath "W" "L:/" 0 "A" 0 [] []))
         <> ParseOk (mkPath "W" "L:/" 0 "A" 0 [] []))
  /\ (TryParse "W@L[3000000000]:/A[0]"
      = ParseOk (mkPath "W" "L" (-1294967296) "A" 0 [] [])
      /\ format (mkPath "W" "L" (-1294967296) "A" 0 [] [])
         = "W@L[-1294967296]:/A[0]"
      /\ TryParse (format (mkPath "W" "L" (-1294967296) "A" 0 [] []))
         <> ParseOk (mkPath "W" "L" (-1294967296) "A" 0 [] [])).
Proof.
  repeat split; try reflexivity; vm_compute; discriminate.
Qed.

(** C7 (as amended). On a path of the canonical shape in which the parser
    acts on no character of a name or of an index text as a delimiter
    where it stands (see [acts]), a non-digit in the level index text, in
    the actor index text, or in the index text of a component step that is
    followed by ["/"], makes [TryParse] fail with the error that names the
    field and quotes its text (the index texts before it holding digits
    only). *)
Theorem non_digit_index_fails :
  (forall W L li rest,
     inert Fill.World W (Some "@"%char) = true ->
     inert Fill.Level L (Some "["%char) = true ->
     inert Fill.LevelIdx li (Some "]"%char) = true ->
     digits_only li = false ->
     TryParse (W ++ "@" ++ L ++ "[" ++ li ++ "]:/" ++ rest)
     = ParseFail ("Failed to parse level index: " ++ li))
  /\ (forall W L li A ai rest,
     inert Fill.World W (Some "@"%char) = true ->
     inert Fill.Level L (Some "["%char) = true ->
     inert Fill.Actor A (Some "["%char) = true ->
     digits_only li = true ->
     inert Fill.ActorIdx ai (Some "]"%char) = true ->
     digits_only ai = false ->
     TryParse (W ++ "@" ++ L ++ "[" ++ li ++ "]:/" ++ A ++ "[" ++ ai ++ "]"
               ++ rest)
     = ParseFail ("Failed to parse actor index: " ++ ai))
  /\ (forall W L li A ai steps C ci rest,
     inert Fill.World W (Some "@"%char) = true ->
     inert Fill.Level L (Some "["%char) = true ->
     inert Fill.Actor A (Some "["%char) = true ->
     digits_only li = true -> digits_only ai = true ->
     forallb good_step steps = true ->
     inert Fill.Component C (Some "["%char) = true ->
     inert Fill.ComponentIndex ci (Some "]"%char) = true ->
     digits_only ci = false ->
     TryParse (W ++ "@" ++ L ++ "[" ++ li ++ "]:/" ++ A ++ "[" ++ ai ++ "]"
               ++ "->" ++ steps_text steps (C ++ "[" ++ ci ++ "]/" ++ rest))
     = ParseFail ("Failed to parse component index: " ++ ci)).
Proof.
  split; [|split].
  - intros W L li rest HW HL Pli Dli.
    unfold TryParse, Loc.init.
    run. run. run.
    rewrite (TryParseInt_non_digit li Dli). reflexivity.
  - intros W L li A ai rest HW HL HA Dli Pai Dai.
    pose proof (digits_only_plain li Dli) as Pli.
    unfold TryParse, Loc.init.
    run. run. run.
    rewrite (TryParseInt_index_of_text li Dli). cbn.
    run. run.
    rewrite (TryParseInt_non_digit ai Dai). reflexivity.
  - intros W L li A ai steps C ci rest HW HL HA Dli Dai Hg HC Pci Dci.
    unfold TryParse.
    rewrite loop_actor_prefix by assumption.
    cbn [append loop body peek next_is Loc.SkipNext Loc.CurrentFillingMode
         Ascii.eqb Bool.eqb andb Loc.set_SkipNext Loc.set_CurrentFillingMode].
    rewrite loop_steps by exact Hg.
    run. run.
    rewrite (TryParseInt_non_digit ci Dci). reflexivity.
Qed.

Lemma non_digit_index_fails_witness :
  TryParse ("W" ++ "@" ++ "L" ++ "[" ++ "x" ++ "]:/" ++ "A[0]->C[0]")
  = ParseFail ("Failed to parse level index: " ++ "x")
  /\ TryParse ("W" ++ "@" ++ "L" ++ "[" ++ "0" ++ "]:/" ++ "A" ++ "[" ++ "1/y"
               ++ "]" ++ "->C[0]")
     = ParseFail ("Failed to parse actor index: " ++ "1/y")
  /\ TryParse ("W" ++ "@" ++ "L" ++ "[" ++ "2" ++ "]:/" ++ "A" ++ "[" ++ "1"
               ++ "]" ++ "->"
               ++ steps_text [("C1", "0")] ("C2" ++ "[" ++ "z" ++ "]/" ++ "C3[4]"))
     = ParseFail ("Failed to parse component index: " ++ "z").
Proof.
  split; [|split].
  - apply (proj1 non_digit_index_fails); reflexivity.
  - apply (proj1 (proj2 non_digit_index_fails)); reflexivity.
  - apply (proj2 (proj2 non_digit_index_fails)); reflexivity.
Defined.

(** C7 (counterexamples). Non-digits between brackets that do not make
    [TryParse] fail: the delimiter ["->"] between the level brackets (the
    loop acts on it as a delimiter), and a letter between the brackets of
    the last component step (whose index is never parsed). *)
Lemma non_digit_index_accepted :
  TryParse "W@L[->]:/A[0]" = ParseOk (mkPath "W" "L" 0 "A" 0 [] [])
  /\ TryParse "W@L[0]:/A[0]->C[x]" = ParseOk (mkPath "W" "L" 0 "A" 0 [] []).
Proof. split; reflexivity. Qed.

(** ** The resolver *)

Lemma nth_error_nil_none (A : Type) (n : nat) : nth_error (@nil A) n = None.
Proof. destruct n; reflexivity. Qed.

(** The counting loop returns the element of the filtered list at offset
    [Index - sameNumberHit], and nothing once the counter is past
    [Index]. *)
Lemma scan_filter (cand : Ptr -> bool) (Index : Z) (Xs : list Ptr) :
  forall hit,
  fst (scan cand Index Xs hit)
  = if (Index <? hit)%Z then None
    else nth_error (filter cand Xs) (Z.to_nat (Index - hit)).
Proof.
  induction Xs as [|X Xs IH]; intros hit; cbn [scan filter].
  - cbn [fst]. rewrite nth_error_nil_none. now destruct (Index <? hit)%Z.
  - destruct (cand X) eqn:EX; cbn [negb].
    + destruct (Z.eqb_spec hit Index) as [->|Hne].
      * cbn [fst]. rewrite Z.ltb_irrefl, Z.sub_diag. reflexivity.
      * rewrite IH.
        destruct (Z.ltb_spec Index hit) as [Hlt|Hge].
        -- destruct (Z.ltb_spec Index (hit + 1)); [reflexivity|lia].
        -- destruct (Z.ltb_spec Index (hit + 1)); [lia|].
           replace (Z.to_nat (Index - hit))
             with (S (Z.to_nat (Index - (hit + 1)))) by lia.
           reflexivity.
    + apply IH.
Qed.

Lemma scan_nth_same_name (h : Host) (N : string) (k : Z) (Xs : list Ptr) :
  fst (scan (named h N) k Xs 0) = nth_same_name h N k Xs.
Proof.
  rewrite scan_filter. unfold nth_same_name. now rewrite Z.sub_0_r.
Qed.

Lemma body_keeps_WorldName (c : ascii) (next : option ascii) (l l' : Loc.t) :
  Ascii.eqb c "@" = false -> body c next l = Next l' ->
  Loc.WorldName l' = Loc.WorldName l.
Proof.
  destruct l as [wn ln li an ai cn ci ws ls acs cs lis ais cis m sk].
  intros Hc H. unfold body in H. rewrite Hc in H. cbn in H.
  repeat match type of H with
         | context [if ?b then _ else _] => destruct b; cbn in H
         | context [match TryParseInt ?x with _ => _ end] =>
             destruct (TryParseInt x); cbn in H
         end;
    try discriminate; try (injection H as <-; reflexivity).
  destruct m; injection H as <-; reflexivity.
Qed.

Lemma loop_keeps_WorldName (Path : string) :
  forall l l', has_at Path = false -> loop Path l = Next l' ->
  Loc.WorldName l' = Loc.WorldName l.
Proof.
  induction Path as [|c Path IH]; intros l l' Hat H; cbn [loop] in H.
  - now injection H as <-.
  - cbn [has_at] in Hat. apply orb_false_iff in Hat as [Hc Hat].
    destruct (body c (peek Path) l) as [l1|e] eqn:E; [|discriminate].
    rewrite (IH l1 l' Hat H). eapply body_keeps_WorldName; eassumption.
Qed.

Lemma TryParse_ok_has_at (Path : string) (r : FPathStructure) :
  TryParse Path = ParseOk r -> has_at Path = true.
Proof.
  intros H. destruct (has_at Path) eqn:Hat; [reflexivity|].
  unfold TryParse in H.
  destruct (loop Path Loc.init) as [l|e] eqn:E; [|discriminate].
  rewrite (loop_keeps_WorldName Path Loc.init l Hat E) in H.
  discriminate H.
Qed.

Lemma ToLower_at (c : ascii) : Ascii.eqb (ToLower c) "@" = Ascii.eqb c "@".
Proof. destruct c as [[] [] [] [] [] [] [] []]; reflexivity. Qed.

Lemma FString_equals_has_at (a : string) :
  forall b, FString_equals a b = true -> has_at a = has_at b.
Proof.
  induction a as [|x a IH]; intros [|y b] H; cbn [FString_equals] in H;
    try discriminate; [reflexivity|].
  apply andb_true_iff in H as [Hxy Hab].
  apply Ascii.eqb_eq in Hxy.
  cbn [has_at]. rewrite (IH b Hab).
  now rewrite <- (ToLower_at x), <- (ToLower_at y), Hxy.
Qed.

Lemma TryParse_ok_not_guarded (Path : string) (r : FPathStructure) :
  TryParse Path = ParseOk r ->
  IsEmpty Path = false
  /\ FString_equals Path "[invalid world]" = false
  /\ FString_equals Path "[invalid level]" = false
  /\ FString_equals Path "[invalid actor]" = false.
Proof.
  intros H. pose proof (TryParse_ok_has_at Path r H) as Hat.
  split; [destruct Path; [discriminate H | reflexivity]|].
  repeat split;
    match goal with
    | |- FString_equals Path ?S = false =>
        destruct (FString_equals Path S) eqn:E; [|reflexivity];
        apply FString_equals_has_at in E; rewrite Hat in E; discriminate E
    end.
Qed.

Lemma FindActorComponentByPath_parsed (h : Host) (Path : string)
    (r : FPathStructure) :
  TryParse Path = ParseOk r ->
  FindActorComponentByPath h Path
  = (locate_actor_then h r actor_component_stage, []).
Proof.
  intros H. destruct (TryParse_ok_not_guarded Path r H) as (E0 & E1 & E2 & E3).
  unfold FindActorComponentByPath, parse_or_log.
  now rewrite E0, E1, E2, E3, H.
Qed.

Lemma FindSceneComponentByPath_parsed (h : Host) (Path : string)
    (r : FPathStructure) :
  TryParse Path = ParseOk r ->
  FindSceneComponentByPath h Path
  = (locate_actor_then h r scene_component_stage, []).
Proof.
  intros H. destruct (TryParse_ok_not_guarded Path r H) as (E0 & E1 & E2 & E3).
  unfold FindSceneComponentByPath, parse_or_log.
  now rewrite E0, E1, E2, E3, H.
Qed.

(** C6. On a successfully parsed path whose world is found, both component
    resolvers take as level the [LevelIndex]-th of the world's levels named
    [LevelName] and as actor the [ActorIndex]-th of that level's actors
    named [ActorName], in list order; when either does not exist the result
    is absent, and otherwise the call is the component stage on that
    actor. *)
Theorem level_and_actor_by_occurrence (h : Host) (Path : string)
    (r : FPathStructure) (World : Ptr) :
  TryParse Path = ParseOk r ->
  FindObject_UWorld h (WorldName r) = Some World ->
  FindActorComponentByPath h Path
  = match nth_same_name h (LevelName r) (LevelIndex r)
                        (GetAllLevelsInWorld h World) with
    | None => (Returned None, [])
    | Some Level =>
        match nth_same_name h (ActorName r) (ActorIndex r)
                            (GetAllActorsInLevel h Level) with
        | None => (Returned None, [])
        | Some Actor => (actor_component_stage h r Actor, [])
        end
    end
  /\ FindSceneComponentByPath h Path
     = match nth_same_name h (LevelName r) (LevelIndex r)
                           (GetAllLevelsInWorld h World) with
       | None => (Returned None, [])
       | Some Level =>
           match nth_same_name h (ActorName r) (ActorIndex r)
                               (GetAllActorsInLevel h Level) with
           | None => (Returned None, [])
           | Some Actor => (scene_component_stage h r Actor, [])
           end
       end.
Proof.
  intros HP HW.
  rewrite (FindActorComponentByPath_parsed h Path r HP).
  rewrite (FindSceneComponentByPath_parsed h Path r HP).
  unfold locate_actor_then. rewrite HW, scan_nth_same_name.
  destruct (nth_same_name h (LevelName r) (LevelIndex r)
              (GetAllLevelsInWorld h World)) as [Level|]; [|split; reflexivity].
  rewrite scan_nth_same_name.
  destruct (nth_same_name h (ActorName r) (ActorIndex r)
              (GetAllActorsInLevel h Level)); split; reflexivity.
Qed.

Lemma level_and_actor_by_occurrence_witness :
  FindActorComponentByPath Scene.host "W@L[0]:/A[0]->Health[0]/"
  = (Returned (Some 1002%N), [])
  /\ FindSceneComponentByPath Scene.host "W@L[0]:/A[0]->Health[0]/"
     = (Returned None, []).
Proof.
  exact (level_and_actor_by_occurrence Scene.host "W@L[0]:/A[0]->Health[0]/"
           (mkPath "W" "L" 0 "A" 0 ["Health"] [0]) 1%N eq_refl eq_refl).
Defined.

(** C8. On a successfully parsed path for which the world, the level and
    the actor are found, [FindActorComponentByPath] throws exactly when the
    number of component steps is not one and [FindSceneComponentByPath]
    throws exactly when it is zero; otherwise the call returns what the
    component walk over the actor's sorted components yields. *)
Theorem arity_failures (h : Host) (Path : string) (r : FPathStructure)
    (World Level Actor : Ptr) :
  TryParse Path = ParseOk r ->
  FindObject_UWorld h (WorldName r) = Some World ->
  fst (scan (named h (LevelName r)) (LevelIndex r)
            (GetAllLevelsInWorld h World) 0) = Some Level ->
  fst (scan (named h (ActorName r)) (ActorIndex r)
            (GetAllActorsInLevel h Level) 0) = Some Actor ->
  ((exists msg, fst (FindActorComponentByPath h Path) = Thrown msg)
   <-> List.length (ComponentNames r) <> 1%nat)
  /\ ((exists msg, fst (FindSceneComponentByPath h Path) = Thrown msg)
      <-> List.length (ComponentNames r) = 0%nat)
  /\ (List.length (ComponentNames r) = 1%nat ->
      FindActorComponentByPath h Path
      = (Returned (component_walk (named h) (GetAllComponentsInActor h Actor)
                     (ComponentNames r) (ComponentIndices r) None), []))
  /\ (List.length (ComponentNames r) <> 0%nat ->
      FindSceneComponentByPath h Path
      = (Returned (component_walk (scene_named h)
                     (GetAllComponentsInActor h Actor)
                     (ComponentNames r) (ComponentIndices r) None), [])).
Proof.
  intros HP HW HL HA.
  destruct (TryParse_ok Path r HP) as (_ & _ & _ & _ & _ & Hlen).
  rewrite (FindActorComponentByPath_parsed h Path r HP).
  rewrite (FindSceneComponentByPath_parsed h Path r HP).
  unfold locate_actor_then. rewrite HW, HL, HA. cbn [fst].
  unfold actor_component_stage, scene_component_stage.
  rewrite <- Hlen, Nat.eqb_refl. cbn [negb].
  destruct (Nat.eqb_spec (List.length (ComponentNames r)) 1) as [E1|N1];
    destruct (Nat.eqb_spec (List.length (ComponentNames r)) 0) as [E0|N0];
    cbn [negb]; repeat split; intros;
    try congruence; try lia; try (eexists; reflexivity);
    try (match goal with H : exists _, _ |- _ => destruct H; discriminate end).
Qed.

Lemma arity_failures_witness :
  (exists msg,
     fst (FindActorComponentByPath Scene.host "W@L[0]:/A[0]->Root[0]/Mesh[0]/")
     = Thrown msg)
  /\ FindSceneComponentByPath Scene.host "W@L[0]:/A[0]->Root[0]/Mesh[0]/"
     = (Returned (Some 1001%N), []).
Proof.
  pose proof (arity_failures Scene.host "W@L[0]:/A[0]->Root[0]/Mesh[0]/"
                (mkPath "W" "L" 0 "A" 0 ["Root"; "Mesh"] [0; 0])
                1%N 10%N 100%N eq_refl eq_refl eq_refl eq_refl)
    as (Hactor & _ & _ & Hscene).
  split.
  - apply Hactor. cbn. lia.
  - apply Hscene. cbn. lia.
Defined.

(** C5 (evaluation of the code). The two component resolvers return absent
    and log nothing on each of the three sentinels, and so does
    [FindUActorByPath] on ["[invalid world]"] and ["[invalid level]"]; on
    ["[invalid actor]"], for which it has no guard, it parses the text,
    fails and logs the parse error, whatever the host. *)
Theorem sentinel_guards (h : Host) :
  (FindActorComponentByPath h "[invalid world]" = (Returned None, [])
   /\ FindActorComponentByPath h "[invalid level]" = (Returned None, [])
   /\ FindActorComponentByPath h "[invalid actor]" = (Returned None, []))
  /\ (FindSceneComponentByPath h "[invalid world]" = (Returned None, [])
      /\ FindSceneComponentByPath h "[invalid level]" = (Returned None, [])
      /\ FindSceneComponentByPath h "[invalid actor]" = (Returned None, []))
  /\ (FindUActorByPath h "[invalid world]" = (Returned None, [])
      /\ FindUActorByPath h "[invalid level]" = (Returned None, []))
  /\ TryParse "[invalid actor]" = ParseFail "Missing required path components"
  /\ snd (FindUActorByPath h "[invalid actor]")
     = ["Missing required path components"].
Proof.
  repeat split; try reflexivity.
  unfold FindUActorByPath, parse_or_log.
  change (TryParse "[invalid actor]")
    with (ParseFail "Missing required path components").
  cbn [IsEmpty String.eqb Ascii.eqb Bool.eqb].
  destruct (FindObject_UWorld h (WorldName (default_Result h))) as [World|];
    [|reflexivity].
  destruct (FindObject_ULevel h World (LevelName (default_Result h)))
    as [Level|]; [|reflexivity].
  destruct (FindObject_AActor h Level (ActorName (default_Result h)));
    reflexivity.
Qed.

(** On a hit the counting loop stops with the counter equal to the index. *)
Lemma scan_hit_counter (cand : Ptr -> bool) (Index : Z) (Xs : list Ptr) :
  forall hit X n, scan cand Index Xs hit = (Some X, n) -> n = Index.
Proof.
  induction Xs as [|Y Xs IH]; intros hit X n H; cbn [scan] in H.
  - discriminate.
  - destruct (cand Y); cbn [negb] in H.
    + destruct (Z.eqb_spec hit Index) as [->|_].
      * now injection H as _ <-.
      * eapply IH; eassumption.
    + eapply IH; eassumption.
Qed.

(** C3 (evaluation of the code). When the scan for a step ends without a
    hit and with the counter equal to the step's index, the test
    [sameNumberHit < ComponentIndices[i]] does not fire and the walk goes
    on with the match of the earlier step.  In the small scene the path
    ["W@L[0]:/A[0]->Root[0]/Missing[0]/"] parses to the two steps
    [("Root", 0)] and [("Missing", 0)]; no scene component is called
    [Missing], and the call returns [Root].  The same happens for
    ["Mesh[1]"] with a single [Mesh]. *)
Theorem FindSceneComponentByPath_keeps_earlier_match :
  (forall cand Components N1 I1 N2 I2 c,
     fst (scan (cand N1) I1 Components 0) = Some c ->
     scan (cand N2) I2 Components 0 = (None, I2) ->
     component_walk cand Components [N1; N2] [I1; I2] None = Some c)
  /\ TryParse "W@L[0]:/A[0]->Root[0]/Missing[0]/"
     = ParseOk (mkPath "W" "L" 0 "A" 0 ["Root"; "Missing"] [0; 0])
  /\ scan (scene_named Scene.host "Missing") 0
          (GetAllComponentsInActor Scene.host 100%N) 0 = (None, 0)
  /\ FindSceneComponentByPath Scene.host "W@L[0]:/A[0]->Root[0]/Missing[0]/"
     = (Returned (Some 1000%N), [])
  /\ GetName Scene.host 1000%N = "Root"
  /\ scan (scene_named Scene.host "Mesh") 1
          (GetAllComponentsInActor Scene.host 100%N) 0 = (None, 1)
  /\ FindSceneComponentByPath Scene.host "W@L[0]:/A[0]->Root[0]/Mesh[1]/"
     = (Returned (Some 1000%N), [])
  /\ FindSceneComponentByPath Scene.host "W@L[0]:/A[0]->Root[0]/Mesh[2]/"
     = (Returned None, []).
Proof.
  split; [|repeat split; reflexivity].
  intros cand Components N1 I1 N2 I2 c H1 H2.
  cbn [component_walk].
  destruct (scan (cand N1) I1 Components 0) as [hit n] eqn:E1.
  cbn [fst] in H1. subst hit.
  rewrite (scan_hit_counter _ _ _ _ _ _ E1), Z.ltb_irrefl.
  now rewrite H2, Z.ltb_irrefl.
Qed.

Lemma FindSceneComponentByPath_keeps_earlier_match_witness :
  component_walk (scene_named Scene.host)
    (GetAllComponentsInActor Scene.host 100%N)
    ["Root"; "Missing"] [0; 0] None = Some 1000%N.
Proof.
  apply (proj1 FindSceneComponentByPath_keeps_earlier_match); reflexivity.
Defined.

(** [index_from] returns the first position of [X], counted from [i]. *)
Lemma index_from_position (X : Ptr) (Xs : list Ptr) :
  forall i, In X Xs ->
  exists k, index_from X Xs i = i + Z.of_nat k
            /\ nth_error Xs k = Some X
            /\ forall j, (j < k)%nat -> nth_error Xs j <> Some X.
Proof.
  induction Xs as [|Y Xs IH]; intros i HIn; [destruct HIn|].
  cbn [index_from].
  destruct (N.eqb_spec Y X) as [->|Hne].
  - exists 0%nat. repeat split; [lia | intros j Hj; lia].
  - destruct HIn as [HIn|HIn]; [congruence|].
    destruct (IH (i + 1) HIn) as (k & Hk & Hn & Hfirst).
    exists (S k). repeat split; [lia | exact Hn |].
    intros [|j] Hj; cbn [nth_error]; [congruence|].
    apply Hfirst. lia.
Qed.

(** C4 (evaluation of the code). [GetIndexOfSameComponent] returns the
    position of the component in the whole sorted component array of its
    owner, whatever the names.  In the small scene the sorted components
    are [Root], [Health], [Mesh]: [Health] and [Mesh] are each the only
    component of their name (occurrence index 0), and [GetWorldPath]
    writes [Health[1]] and [Root[0]/Mesh[2]]; resolving the text written
    for [Health], closed by ["/"] so that its step is committed, does not
    give [Health] back. *)
Theorem GetIndexOfSameComponent_is_position :
  (forall h Component Owner, GetOwner h Component = Some Owner ->
     In Component (GetAllComponentsInActor h Owner) ->
     exists k, GetIndexOfSameComponent h Component = Some (Z.of_nat k)
               /\ nth_error (GetAllComponentsInActor h Owner) k
                  = Some Component)
  /\ GetAllComponentsInActor Scene.host 100%N = [1000%N; 1002%N; 1001%N]
  /\ occurrence_index Scene.host 1002%N
       (GetAllComponentsInActor Scene.host 100%N) = 0
  /\ GetIndexOfSameComponent Scene.host 1002%N = Some 1
  /\ GetWorldPath_ActorComponent 8 Scene.host (Some 1002%N)
     = Some "W@L[0]:/A[0]->Health[1]"
  /\ occurrence_index Scene.host 1001%N
       (GetAllComponentsInActor Scene.host 100%N) = 0
  /\ GetIndexOfSameComponent Scene.host 1001%N = Some 2
  /\ GetWorldPath_SceneComponent 8 Scene.host (Some 1001%N)
     = Some "W@L[0]:/A[0]->Root[0]/Mesh[2]"
  /\ FindActorComponentByPath Scene.host "W@L[0]:/A[0]->Health[1]/"
     = (Returned None, [])
  /\ FindActorComponentByPath Scene.host "W@L[0]:/A[0]->Health[0]/"
     = (Returned (Some 1002%N), []).
Proof.
  split.
  - intros h Component Owner H HIn. unfold GetIndexOfSameComponent.
    rewrite H.
    destruct (index_from_position Component _ 0 HIn) as (k & Hk & Hn & _).
    exists k. now rewrite Hk.
  - repeat split; reflexivity.
Qed.

Lemma GetIndexOfSameComponent_is_position_witness :
  exists k, GetIndexOfSameComponent Scene.host 1002%N = Some (Z.of_nat k)
            /\ nth_error (GetAllComponentsInActor Scene.host 100%N) k
               = Some 1002%N.
Proof.
  apply (proj1 GetIndexOfSameComponent_is_position).
  - reflexivity.
  - cbn. tauto.
Defined.

(** The [AActor] overload of [GetWorldPath] writes the sentinel
    ["[invalid actor]"] for a null actor. *)
Lemma GetWorldPath_Actor_null (h : Host) :
  GetWorldPath_Actor h None = Some "[invalid actor]".
Proof. reflexivity. Qed.

(** The text that [GetWorldPath] writes for a component does not end in
    ["/"], so [FindActorComponentByPath] sees no component step in it and
    throws. *)
Lemma GetWorldPath_text_is_not_resolved :
  GetWorldPath_ActorComponent 8 Scene.host (Some 1002%N)
  = Some "W@L[0]:/A[0]->Health[1]"
  /\ FindActorComponentByPath Scene.host "W@L[0]:/A[0]->Health[1]"
     = (Thrown "Only one component layer should be specified", []).
Proof. split; reflexivity. Qed.

(** * Further properties of the code *)

(** ** [FPathStructure::TryParseInt] and [%d] *)

Lemma TryParseInt_from_digits (s : string) :
  forall acc, digits_only s = true -> exists v, TryParseInt_from s acc = Some v.
Proof.
  induction s as [|c s IH]; intros acc Hd; cbn [TryParseInt_from].
  - now exists acc.
  - cbn [digits_only forallb_string] in Hd.
    apply andb_true_iff in Hd as [Hc Hs].
    rewrite (is_digit_test c Hc). now apply IH.
Qed.

(** X1. [TryParseInt] returns false exactly on the strings that hold a
    character other than [0]-[9]; on every other string, the empty one
    included, it returns true with a value in the [int32] range. *)
Theorem TryParseInt_fails_iff_non_digit (s : string) :
  (TryParseInt s = None <-> digits_only s = false)
  /\ (forall v, TryParseInt s = Some v -> digits_only s = true /\ in_int32 v).
Proof.
  split; [split|].
  - intros H. destruct (digits_only s) eqn:E; [|reflexivity].
    destruct (TryParseInt_from_digits s 0 E) as [v Hv].
    unfold TryParseInt in H. congruence.
  - apply TryParseInt_non_digit.
  - intros v H. split; [|exact (TryParseInt_range s v H)].
    destruct (digits_only s) eqn:E; [reflexivity|].
    rewrite (TryParseInt_non_digit s E) in H. discriminate.
Qed.

Lemma TryParseInt_fails_iff_non_digit_witness :
  digits_only "007" = true /\ in_int32 7.
Proof.
  apply (proj2 (TryParseInt_fails_iff_non_digit "007") 7). reflexivity.
Defined.

(** X2. Writing an index with [%d] and reading it with [TryParseInt] gives
    the index back when it is between 0 and [2^31 - 1]; a negative index,
    such as the -1 with which the [GetIndexOfSame...] functions report a
    miss, is written with a minus sign and cannot be read back. *)
Theorem printf_d_TryParseInt (n : Z) :
  (0 <= n < 2 ^ 31 -> TryParseInt (printf_d n) = Some n)
  /\ (n < 0 -> TryParseInt (printf_d n) = None).
Proof.
  split.
  - apply TryParseInt_printf_d.
  - intros Hn. unfold printf_d.
    destruct (Z.ltb_spec n 0) as [_|]; [reflexivity|lia].
Qed.

Lemma printf_d_TryParseInt_witness :
  TryParseInt (printf_d 2147483647) = Some 2147483647
  /\ TryParseInt (printf_d (-1)) = None.
Proof.
  split.
  - apply (proj1 (printf_d_TryParseInt 2147483647)). lia.
  - apply (proj2 (printf_d_TryParseInt (-1))). lia.
Defined.

(** ** [FPathStructure::TryParse]: what it returns *)

Lemma TryParseInt_none_non_digit (s : string) :
  TryParseInt s = None -> digits_only s = false.
Proof.
  intros H. destruct (digits_only s) eqn:E; [|reflexivity].
  destruct (TryParseInt_from_digits s 0 E) as [v Hv].
  unfold TryParseInt in H. congruence.
Qed.

Lemma body_error (c : ascii) (next : option ascii) (l : Loc.t) (e : string) :
  body c next l = ReturnFalse e -> index_error e.
Proof.
  destruct l as [wn ln li an ai cn ci ws ls acs cs lis ais cis m sk].
  intros H. unfold body in H. cbn in H. unfold index_error.
  repeat match type of H with
         | context [if ?b then _ else _] => destruct b; cbn in H
         | context [match TryParseInt ?x with _ => _ end] =>
             let E := fresh "E" in
             destruct (TryParseInt x) eqn:E; cbn in H
         end;
    try discriminate;
    injection H as <-;
    match goal with
    | E : TryParseInt ?x = None |- _ =>
        exists x; split; [exact (TryParseInt_none_non_digit x E)|tauto]
    end.
Qed.

Lemma loop_error (Path : string) :
  forall l e, loop Path l = ReturnFalse e -> index_error e.
Proof.
  induction Path as [|c Path IH]; intros l e H; cbn [loop] in H.
  - discriminate.
  - destruct (body c (peek Path) l) as [l1|e1] eqn:E.
    + eapply IH; eassumption.
    + injection H as <-. eapply body_error; eassumption.
Qed.

Lemma body_arrays_paired (c : ascii) (next : option ascii) (l l' : Loc.t) :
  arrays_paired l -> body c next l = Next l' -> arrays_paired l'.
Proof.
  unfold arrays_paired.
  destruct l as [wn ln li an ai cn ci ws ls acs cs lis ais cis m sk].
  cbn [Loc.ComponentNames Loc.ComponentIndices].
  intros Hl H. unfold body in H. cbn in H.
  repeat match type of H with
         | context [if ?b then _ else _] => destruct b; cbn in H
         | context [match TryParseInt ?x with _ => _ end] =>
             destruct (TryParseInt x); cbn in H
         end;
    try discriminate;
    try (injection H as <-; cbn; rewrite ?length_app; cbn; lia).
  destruct m; injection H as <-; cbn; assumption.
Qed.

Lemma loop_arrays_paired (Path : string) :
  forall l l', arrays_paired l -> loop Path l = Next l' -> arrays_paired l'.
Proof.
  induction Path as [|c Path IH]; intros l l' Hl H; cbn [loop] in H.
  - now injection H as <-.
  - destruct (body c (peek Path) l) as [l1|e] eqn:E; [|discriminate].
    eapply IH; [|exact H]. eapply body_arrays_paired; eassumption.
Qed.

Lemma index_error_starts_with_F (e : string) :
  index_error e -> exists rest, e = String "F" rest.
Proof.
  intros (t & _ & [-> | [-> | ->]]); eexists; reflexivity.
Qed.

(** X3. The record of a successful [TryParse]: none of the three names is
    empty or holds an ["@"]; the names of the level and of the actor hold
    no ["["]; the world name holds neither [":/"] nor ["->"]; the two
    indices are [int32] values; there are as many component names as
    component indices. *)
Theorem TryParse_record_invariants (Path : string) (r : FPathStructure) :
  TryParse Path = ParseOk r ->
  (IsEmpty (WorldName r) = false /\ IsEmpty (LevelName r) = false
   /\ IsEmpty (ActorName r) = false)
  /\ (lacks "@" (WorldName r) = true /\ lacks "@" (LevelName r) = true
      /\ lacks "@" (ActorName r) = true)
  /\ (lacks "[" (LevelName r) = true /\ lacks "[" (ActorName r) = true)
  /\ no_pair (WorldName r) = true
  /\ (in_int32 (LevelIndex r) /\ in_int32 (ActorIndex r))
  /\ List.length (ComponentNames r) = List.length (ComponentIndices r).
Proof.
  intros H.
  destruct (TryParse_ok Path r H) as (EW & EL & EA & Rl & Ra & Hlen).
  destruct (TryParse_ok_names Path r H) as (AW & AL & AA & BL & BA & HW).
  tauto.
Qed.

Lemma TryParse_record_invariants_witness :
  List.length (ComponentNames (mkPath "a:b" "L]" 7 "x/y" 0 ["C"; ""] [1; 0]))
  = List.length (ComponentIndices (mkPath "a:b" "L]" 7 "x/y" 0 ["C"; ""] [1; 0])).
Proof.
  apply (TryParse_record_invariants "a:b@L][007]:/x/y[]->C[1]//").
  reflexivity.
Defined.

(** X4. The failures of [TryParse]: the message is either
    ["Missing required path components"] or one of the three index
    messages followed by the offending text, which holds a non-digit.  In
    particular the message ["Component names and indices must be the same
    length"] is never returned: the two arrays grow together. *)
Theorem TryParse_failures (Path : string) (e : string) :
  TryParse Path = ParseFail e ->
  (e = "Missing required path components" \/ index_error e)
  /\ e <> "Component names and indices must be the same length".
Proof.
  unfold TryParse. intros H.
  destruct (loop Path Loc.init) as [l|e1] eqn:E.
  - assert (arrays_paired l) as Hp.
    { eapply loop_arrays_paired; [|exact E]. reflexivity. }
    unfold arrays_paired in Hp.
    destruct (IsEmpty (Loc.WorldName l) || IsEmpty (Loc.LevelName l)
              || IsEmpty (Loc.ActorName l)).
    + injection H as <-. split; [now left|discriminate].
    + rewrite Hp, Nat.eqb_refl in H. discriminate H.
  - injection H as <-. pose proof (loop_error Path _ _ E) as He.
    split; [now right|].
    destruct (index_error_starts_with_F e1 He) as [rest ->]. discriminate.
Qed.

Lemma TryParse_failures_witness :
  ("Failed to parse actor index: 1a" = "Missing required path components"
   \/ index_error "Failed to parse actor index: 1a")
  /\ "Failed to parse actor index: 1a"
     <> "Component names and indices must be the same length".
Proof.
  apply (TryParse_failures "W@L[3]:/A[1a]->C[x]/"). reflexivity.
Defined.

Lemma body_keeps_LevelName (c : ascii) (next : option ascii) (l l' : Loc.t) :
  Ascii.eqb c ":" && next_is next "/" = false -> body c next l = Next l' ->
  Loc.LevelName l' = Loc.LevelName l.
Proof.
  destruct l as [wn ln li an ai cn ci ws ls acs cs lis ais cis m sk].
  intros Hc H. unfold body in H. rewrite Hc in H. cbn in H.
  repeat match type of H with
         | context [if ?b then _ else _] => destruct b; cbn in H
         | context [match TryParseInt ?x with _ => _ end] =>
             destruct (TryParseInt x); cbn in H
         end;
    try discriminate; try (injection H as <-; reflexivity).
  destruct m; injection H as <-; reflexivity.
Qed.

Lemma loop_keeps_LevelName (Path : string) :
  forall l l', has_colon_slash Path = false -> loop Path l = Next l' ->
  Loc.LevelName l' = Loc.LevelName l.
Proof.
  induction Path as [|c Path IH]; intros l l' Hp H; cbn [loop] in H.
  - now injection H as <-.
  - cbn [has_colon_slash] in Hp. apply orb_false_iff in Hp as [Hc Hp].
    destruct (body c (peek Path) l) as [l1|e] eqn:E; [|discriminate].
    rewrite (IH l1 l' Hp H). eapply body_keeps_LevelName; eassumption.
Qed.

Lemma body_keeps_ActorName (c : ascii) (next : option ascii) (l l' : Loc.t) :
  Ascii.eqb c "]" = false -> body c next l = Next l' ->
  Loc.ActorName l' = Loc.ActorName l.
Proof.
  destruct l as [wn ln li an ai cn ci ws ls acs cs lis ais cis m sk].
  intros Hc H. unfold body in H. rewrite Hc in H. cbn in H.
  repeat match type of H with
         | context [if ?b then _ else _] => destruct b; cbn in H
         | context [match TryParseInt ?x with _ => _ end] =>
             destruct (TryParseInt x); cbn in H
         end;
    try discriminate; try (injection H as <-; reflexivity).
  destruct m; injection H as <-; reflexivity.
Qed.

Lemma loop_keeps_ActorName (Path : string) :
  forall l l', lacks "]" Path = true -> loop Path l = Next l' ->
  Loc.ActorName l' = Loc.ActorName l.
Proof.
  induction Path as [|c Path IH]; intros l l' Hp H; cbn [loop] in H.
  - now injection H as <-.
  - unfold lacks in Hp. cbn [forallb_string] in Hp.
    apply andb_true_iff in Hp as [Hc Hp]. apply negb_true_iff in Hc.
    destruct (body c (peek Path) l) as [l1|e] eqn:E; [|discriminate].
    rewrite (IH l1 l' Hp H). eapply body_keeps_ActorName; eassumption.
Qed.

(** Without a ["["] the mode [ActorIdx] is never entered, so the actor
    name is never committed. *)
Lemma body_never_ActorIdx (c : ascii) (next : option ascii) (l l' : Loc.t) :
  Ascii.eqb c "[" = false ->
  Loc.CurrentFillingMode l <> Fill.ActorIdx ->
  body c next l = Next l' ->
  Loc.CurrentFillingMode l' <> Fill.ActorIdx
  /\ Loc.ActorName l' = Loc.ActorName l.
Proof.
  destruct l as [wn ln li an ai cn ci ws ls acs cs lis ais cis m sk].
  cbn [Loc.CurrentFillingMode Loc.ActorName].
  intros Hc Hm H. unfold body in H. rewrite Hc in H.
  destruct m; try (exfalso; now apply Hm); cbn in H;
    rewrite ?andb_false_r, ?andb_true_r in H; cbn in H;
    repeat match type of H with
           | context [if ?b then _ else _] => destruct b; cbn in H
           | context [match TryParseInt ?x with _ => _ end] =>
               destruct (TryParseInt x); cbn in H
           end;
    try discriminate; injection H as <-; cbn; split;
    first [reflexivity | discriminate].
Qed.

Lemma loop_never_ActorIdx (Path : string) :
  forall l l', lacks "[" Path = true ->
  Loc.CurrentFillingMode l <> Fill.ActorIdx ->
  loop Path l = Next l' ->
  Loc.ActorName l' = Loc.ActorName l.
Proof.
  induction Path as [|c Path IH]; intros l l' Hp Hm H; cbn [loop] in H.
  - now injection H as <-.
  - unfold lacks in Hp. cbn [forallb_string] in Hp.
    apply andb_true_iff in Hp as [Hc Hp]. apply negb_true_iff in Hc.
    destruct (body c (peek Path) l) as [l1|e] eqn:E; [|discriminate].
    destruct (body_never_ActorIdx c _ l l1 Hc Hm E) as [Hm1 Hn1].
    rewrite (IH l1 l' Hp Hm1 H). exact Hn1.
Qed.

(** X5. A path parses only if it holds an ["@"], a [":/"], a ["["] and a
    ["]"]: [TryParse] fails on every path that lacks one of them, with
    ["Missing required path components"] unless an index error came
    first. *)
Theorem TryParse_needs_delimiters (Path : string) :
  has_at Path = false \/ has_colon_slash Path = false
  \/ lacks "[" Path = true \/ lacks "]" Path = true ->
  TryParse Path = ParseFail "Missing required path components"
  \/ exists e, index_error e /\ TryParse Path = ParseFail e.
Proof.
  intros H. unfold TryParse.
  destruct (loop Path Loc.init) as [l|e] eqn:E.
  - left.
    assert (IsEmpty (Loc.WorldName l) || IsEmpty (Loc.LevelName l)
            || IsEmpty (Loc.ActorName l) = true) as ->; [|reflexivity].
    destruct H as [H|[H|[H|H]]].
    + now rewrite (loop_keeps_WorldName Path _ _ H E).
    + rewrite (loop_keeps_LevelName Path _ _ H E). cbn.
      now rewrite orb_true_r.
    + rewrite (loop_never_ActorIdx Path Loc.init l H) by
        (try exact E; cbn; discriminate).
      cbn. now rewrite !orb_true_r.
    + rewrite (loop_keeps_ActorName Path _ _ H E). cbn.
      now rewrite !orb_true_r.
  - right. exists e. split; [|reflexivity]. eapply loop_error; eassumption.
Qed.

Lemma TryParse_needs_delimiters_witness :
  TryParse "W@L[0]/A[0]->C[0]/" = ParseFail "Missing required path components"
  \/ exists e, index_error e /\ TryParse "W@L[0]/A[0]->C[0]/" = ParseFail e.
Proof.
  apply TryParse_needs_delimiters. right. left. reflexivity.
Defined.

(** X6. Component steps are committed by the ["/"] that follows them: on a
    path of the canonical shape every step of which, the last one
    included, is closed by ["/"], [TryParse] succeeds and the record holds
    the steps in order, each index being the value of its digit string. *)
Theorem TryParse_closed_steps (W L A li ai : string)
    (steps : list (string * string)) :
  inert Fill.World W (Some "@"%char) = true ->
  inert Fill.Level L (Some "["%char) = true ->
  inert Fill.Actor A (Some "["%char) = true ->
  IsEmpty W = false -> IsEmpty L = false -> IsEmpty A = false ->
  digits_only li = true -> digits_only ai = true ->
  forallb good_step steps = true ->
  TryParse (W ++ "@" ++ L ++ "[" ++ li ++ "]:/" ++ A ++ "[" ++ ai ++ "]"
            ++ "->" ++ steps_text steps "")
  = ParseOk (mkPath W L (index_of_text li) A (index_of_text ai)
                    (map fst steps)
                    (map (fun step => index_of_text (snd step)) steps)).
Proof.
  intros HW HL HA EW EL EA Dli Dai Hg.
  unfold TryParse.
  rewrite loop_actor_prefix by assumption.
  cbn [append loop body peek next_is Loc.SkipNext Loc.CurrentFillingMode
       Ascii.eqb Bool.eqb andb Loc.set_SkipNext Loc.set_CurrentFillingMode].
  rewrite loop_steps by exact Hg.
  cbn. rewrite EW, EL, EA, !length_map, Nat.eqb_refl. reflexivity.
Qed.

Lemma TryParse_closed_steps_witness :
  TryParse ("W" ++ "@" ++ "L" ++ "[" ++ "2" ++ "]:/" ++ "A" ++ "[" ++ "1" ++ "]"
            ++ "->" ++ steps_text [("C1", "0"); ("C2", "03")] "")
  = ParseOk (mkPath "W" "L" 2 "A" 1 ["C1"; "C2"] [0; 3]).
Proof.
  apply (TryParse_closed_steps "W" "L" "A" "2" "1" [("C1", "0"); ("C2", "03")]);
    reflexivity.
Defined.

(** ** [UWorldNavigator::GetAllComponentsInActor] *)

Lemma insert_by_id_perm (h : Host) (x : Ptr) (l : list Ptr) :
  Permutation (insert_by_id h x l) (x :: l).
Proof.
  induction l as [|y l IH]; cbn [insert_by_id]; [reflexivity|].
  destruct (GetUniqueID h x <? GetUniqueID h y)%Z; [reflexivity|].
  rewrite IH. apply perm_swap.
Qed.

Lemma Sort_perm (h : Host) (l : list Ptr) : Permutation (Sort h l) l.
Proof.
  unfold Sort. induction l as [|x l IH]; cbn [fold_right]; [reflexivity|].
  rewrite insert_by_id_perm. now constructor.
Qed.

Lemma insert_by_id_sorted (h : Host) (x : Ptr) (l : list Ptr) :
  StronglySorted (id_le h) l -> StronglySorted (id_le h) (insert_by_id h x l).
Proof.
  induction l as [|y l IH]; intros Hs; cbn [insert_by_id].
  - repeat constructor.
  - inversion Hs as [|? ? Hl Hy]; subst.
    destruct (Z.ltb_spec (GetUniqueID h x) (GetUniqueID h y)) as [Hlt|Hge].
    + constructor; [exact Hs|].
      constructor; [unfold id_le; lia|].
      eapply Forall_impl; [|exact Hy]. unfold id_le. intros a Ha. lia.
    + constructor; [now apply IH|].
      eapply Permutation_Forall; [symmetry; apply insert_by_id_perm|].
      constructor; [unfold id_le; lia | exact Hy].
Qed.

Lemma Sort_sorted (h : Host) (l : list Ptr) : StronglySorted (id_le h) (Sort h l).
Proof.
  unfold Sort. induction l as [|x l IH]; cbn [fold_right]; [constructor|].
  now apply insert_by_id_sorted.
Qed.

(** Two sorted arrays with the same elements and pairwise different unique
    ids are the same array. *)
Lemma sorted_unique (h : Host) (l1 : list Ptr) :
  forall l2, StronglySorted (id_le h) l1 -> StronglySorted (id_le h) l2 ->
  Permutation l1 l2 -> NoDup (map (GetUniqueID h) l1) -> l1 = l2.
Proof.
  induction l1 as [|a l1 IH]; intros l2 S1 S2 HP HN.
  - now apply Permutation_nil in HP.
  - destruct l2 as [|b l2];
      [now apply Permutation_sym, Permutation_nil in HP|].
    inversion S1 as [|? ? S1' F1]; subst.
    inversion S2 as [|? ? S2' F2]; subst.
    assert (a = b) as <-.
    { assert (In a (b :: l2)) as Ha
        by (eapply Permutation_in; [exact HP|now left]).
      assert (In b (a :: l1)) as Hb
        by (eapply Permutation_in; [symmetry; exact HP|now left]).
      destruct Ha as [Ha|Ha]; [now symmetry|].
      destruct Hb as [Hb|Hb]; [exact Hb|].
      rewrite Forall_forall in F1, F2.
      pose proof (F1 b Hb) as H1. pose proof (F2 a Ha) as H2.
      unfold id_le in H1, H2.
      assert (GetUniqueID h a = GetUniqueID h b) as Heq by lia.
      cbn [map] in HN. inversion HN as [|? ? Hnin _]; subst.
      exfalso. apply Hnin. rewrite Heq. now apply in_map. }
    f_equal. apply IH; try assumption.
    + eapply Permutation_cons_inv; exact HP.
    + cbn [map] in HN. now inversion HN.
Qed.

Lemma Sort_order_independent (h : Host) (l l' : list Ptr) :
  Permutation l l' -> NoDup (map (GetUniqueID h) l) -> Sort h l = Sort h l'.
Proof.
  intros HP HN. apply (sorted_unique h); try apply Sort_sorted.
  - rewrite !Sort_perm. exact HP.
  - eapply Permutation_NoDup; [|exact HN].
    apply Permutation_map. symmetry. apply Sort_perm.
Qed.

(** X7. [GetAllComponentsInActor] returns the components of the actor,
    each as often as the component set enumerates it, in ascending order
    of unique id. *)
Theorem GetAllComponentsInActor_sorted (h : Host) (Actor : Ptr) :
  Permutation (GetAllComponentsInActor h Actor) (GetComponents h Actor)
  /\ StronglySorted (id_le h) (GetAllComponentsInActor h Actor).
Proof.
  split; [apply Sort_perm | apply Sort_sorted].
Qed.

Lemma Sort_with_GetComponents (h : Host) (g : Ptr -> list Ptr)
    (l : list Ptr) :
  Sort (with_GetComponents h g) l = Sort h l.
Proof.
  unfold Sort. induction l as [|x l IH]; cbn [fold_right]; [reflexivity|].
  rewrite IH. generalize (fold_right (insert_by_id h) [] l). intros k.
  induction k as [|y k IHk]; cbn [insert_by_id]; [reflexivity|].
  change (GetUniqueID (with_GetComponents h g)) with (GetUniqueID h).
  now rewrite IHk.
Qed.

(** X8. When the unique ids of the components of an actor are pairwise
    different, the array that [GetAllComponentsInActor] returns does not
    depend on the order in which the component set enumerates them, and
    neither do the three resolvers. *)
Theorem enumeration_order_is_irrelevant (h : Host) (g : Ptr -> list Ptr) :
  (forall a, Permutation (GetComponents h a) (g a)) ->
  (forall a, NoDup (map (GetUniqueID h) (GetComponents h a))) ->
  (forall a, GetAllComponentsInActor (with_GetComponents h g) a
             = GetAllComponentsInActor h a)
  /\ (forall Path, FindActorComponentByPath (with_GetComponents h g) Path
                   = FindActorComponentByPath h Path)
  /\ (forall Path, FindSceneComponentByPath (with_GetComponents h g) Path
                   = FindSceneComponentByPath h Path)
  /\ (forall Path, FindUActorByPath (with_GetComponents h g) Path
                   = FindUActorByPath h Path).
Proof.
  intros HP HN.
  assert (forall a, GetAllComponentsInActor (with_GetComponents h g) a
                    = GetAllComponentsInActor h a) as HS.
  { intros a. unfold GetAllComponentsInActor.
    change (GetComponents (with_GetComponents h g) a) with (g a).
    rewrite Sort_with_GetComponents.
    symmetry. apply Sort_order_independent; [apply HP | apply HN]. }
  split; [exact HS|].
  split; [|split]; intros Path.
  - unfold FindActorComponentByPath.
    destruct (IsEmpty Path); [reflexivity|].
    repeat (match goal with
            | |- context [FString_equals Path ?S] =>
                destruct (FString_equals Path S); [reflexivity|]
            end).
    change (parse_or_log (with_GetComponents h g) Path)
      with (parse_or_log h Path).
    destruct (parse_or_log h Path) as [r log]. f_equal.
    unfold locate_actor_then, actor_component_stage.
    change (FindObject_UWorld (with_GetComponents h g))
      with (FindObject_UWorld h).
    destruct (FindObject_UWorld h (WorldName r)) as [World|]; [|reflexivity].
    change (GetAllLevelsInWorld (with_GetComponents h g) World)
      with (GetAllLevelsInWorld h World).
    change (named (with_GetComponents h g)) with (named h).
    destruct (fst (scan (named h (LevelName r)) (LevelIndex r)
                        (GetAllLevelsInWorld h World) 0)) as [Level|];
      [|reflexivity].
    change (GetAllActorsInLevel (with_GetComponents h g) Level)
      with (GetAllActorsInLevel h Level).
    destruct (fst (scan (named h (ActorName r)) (ActorIndex r)
                        (GetAllActorsInLevel h Level) 0)) as [Actor|];
      [|reflexivity].
    now rewrite HS.
  - unfold FindSceneComponentByPath.
    destruct (IsEmpty Path); [reflexivity|].
    repeat (match goal with
            | |- context [FString_equals Path ?S] =>
                destruct (FString_equals Path S); [reflexivity|]
            end).
    change (parse_or_log (with_GetComponents h g) Path)
      with (parse_or_log h Path).
    destruct (parse_or_log h Path) as [r log]. f_equal.
    unfold locate_actor_then, scene_component_stage.
    change (FindObject_UWorld (with_GetComponents h g))
      with (FindObject_UWorld h).
    destruct (FindObject_UWorld h (WorldName r)) as [World|]; [|reflexivity].
    change (GetAllLevelsInWorld (with_GetComponents h g) World)
      with (GetAllLevelsInWorld h World).
    change (named (with_GetComponents h g)) with (named h).
    change (scene_named (with_GetComponents h g)) with (scene_named h).
    destruct (fst (scan (named h (LevelName r)) (LevelIndex r)
                        (GetAllLevelsInWorld h World) 0)) as [Level|];
      [|reflexivity].
    change (GetAllActorsInLevel (with_GetComponents h g) Level)
      with (GetAllActorsInLevel h Level).
    destruct (fst (scan (named h (ActorName r)) (ActorIndex r)
                        (GetAllActorsInLevel h Level) 0)) as [Actor|];
      [|reflexivity].
    now rewrite HS.
  - reflexivity.
Qed.

Lemma enumeration_order_is_irrelevant_witness :
  GetAllComponentsInActor
    (with_GetComponents Scene.host
       (fun a => if N.eqb a 100 then [1000%N; 1001%N; 1002%N] else []))
    100%N
  = GetAllComponentsInActor Scene.host 100%N.
Proof.
  apply (enumeration_order_is_irrelevant Scene.host
           (fun a => if N.eqb a 100 then [1000%N; 1001%N; 1002%N] else [])).
  - intros a. cbn. destruct (N.eqb a 100); [|reflexivity].
    apply Permutation_sym.
    apply (perm_trans (l' := [1001%N; 1000%N; 1002%N]));
      [apply perm_swap | apply perm_skip, perm_swap].
  - intros a. cbn. destruct (N.eqb a 100); [|constructor].
    cbn. repeat constructor; cbn; intuition discriminate.
Defined.

(** ** The resolvers: failures, logs and what is returned *)

Lemma parse_or_log_fail (h : Host) (Path e : string) :
  TryParse Path = ParseFail e ->
  parse_or_log h Path = (default_Result h, [e]).
Proof. intros H. unfold parse_or_log. now rewrite H. Qed.

Lemma guarded_split (Path : string) :
  guarded Path = false ->
  IsEmpty Path = false /\ FString_equals Path "[invalid world]" = false
  /\ FString_equals Path "[invalid level]" = false
  /\ FString_equals Path "[invalid actor]" = false.
Proof.
  unfold guarded. intros H.
  repeat (apply orb_false_iff in H; destruct H as [H ?]). tauto.
Qed.

(** X9. A path that is not caught by the guards and fails to parse with
    the message [e] makes each resolver write exactly [e] to the log and go
    on with a record whose world name is empty: when the host has no world
    of that name the call returns null, it does not throw. *)
Theorem resolvers_on_unparsable_path (h : Host) (Path e : string) :
  TryParse Path = ParseFail e ->
  FindObject_UWorld h "" = None ->
  (guarded Path = false ->
   FindActorComponentByPath h Path = (Returned None, [e])
   /\ FindSceneComponentByPath h Path = (Returned None, [e]))
  /\ (guarded_actor Path = false ->
      FindUActorByPath h Path = (Returned None, [e])).
Proof.
  intros HP HW. split.
  - intros Hg. destruct (guarded_split Path Hg) as (E0 & E1 & E2 & E3).
    unfold FindActorComponentByPath, FindSceneComponentByPath.
    rewrite E0, E1, E2, E3, (parse_or_log_fail h Path e HP).
    unfold locate_actor_then. cbn [default_Result WorldName].
    now rewrite HW.
  - unfold guarded_actor. intros Hg.
    repeat (apply orb_false_iff in Hg; destruct Hg as [Hg ?]).
    unfold FindUActorByPath.
    match goal with
    | E1 : FString_equals Path "[invalid world]" = false,
      E2 : FString_equals Path "[invalid level]" = false |- _ =>
        rewrite Hg, E1, E2
    end.
    rewrite (parse_or_log_fail h Path e HP).
    cbn [default_Result WorldName]. now rewrite HW.
Qed.

Lemma resolvers_on_unparsable_path_witness :
  FindUActorByPath Scene.host "[invalid actor]"
  = (Returned None, ["Missing required path components"]).
Proof.
  apply (resolvers_on_unparsable_path Scene.host "[invalid actor]"
           "Missing required path components"); reflexivity.
Defined.

Lemma TryParse_ok_not_guarded_actor (Path : string) (r : FPathStructure) :
  TryParse Path = ParseOk r -> guarded_actor Path = false.
Proof.
  intros H. destruct (TryParse_ok_not_guarded Path r H) as (E0 & E1 & E2 & _).
  unfold guarded_actor. now rewrite E0, E1, E2.
Qed.

(** X10. [FindUActorByPath] never reads the two indices of the record: on
    a path that parses, the result is what the three [FindObject] lookups
    by world, level and actor name give, so two paths that differ in their
    indices (or in their component steps) only resolve to the same
    actor. *)
Theorem FindUActorByPath_ignores_indices (h : Host) (Path1 Path2 : string)
    (r1 r2 : FPathStructure) :
  TryParse Path1 = ParseOk r1 -> TryParse Path2 = ParseOk r2 ->
  WorldName r1 = WorldName r2 -> LevelName r1 = LevelName r2 ->
  ActorName r1 = ActorName r2 ->
  FindUActorByPath h Path1 = FindUActorByPath h Path2
  /\ FindUActorByPath h Path1
     = (Returned
          match FindObject_UWorld h (WorldName r1) with
          | None => None
          | Some World =>
              match FindObject_ULevel h World (LevelName r1) with
              | None => None
              | Some Level => FindObject_AActor h Level (ActorName r1)
              end
          end, []).
Proof.
  intros H1 H2 EW EL EA.
  assert (forall Path r, TryParse Path = ParseOk r ->
            FindUActorByPath h Path
            = (Returned
                 match FindObject_UWorld h (WorldName r) with
                 | None => None
                 | Some World =>
                     match FindObject_ULevel h World (LevelName r) with
                     | None => None
                     | Some Level => FindObject_AActor h Level (ActorName r)
                     end
                 end, [])) as Hgen.
  { intros Path r H.
    pose proof (TryParse_ok_not_guarded_actor Path r H) as Hg.
    unfold guarded_actor in Hg.
    repeat (apply orb_false_iff in Hg; destruct Hg as [Hg ?]).
    unfold FindUActorByPath, parse_or_log.
    match goal with
    | E1 : FString_equals Path "[invalid world]" = false,
      E2 : FString_equals Path "[invalid level]" = false |- _ =>
        rewrite Hg, E1, E2, H
    end.
    destruct (FindObject_UWorld h (WorldName r)) as [World|]; [|reflexivity].
    destruct (FindObject_ULevel h World (LevelName r)) as [Level|];
      [|reflexivity].
    now destruct (FindObject_AActor h Level (ActorName r)). }
  split; [|now apply Hgen].
  rewrite (Hgen Path1 r1 H1), (Hgen Path2 r2 H2). now rewrite EW, EL, EA.
Qed.

Lemma FindUActorByPath_ignores_indices_witness :
  FindUActorByPath Scene.host "W@L[0]:/A[0]"
  = FindUActorByPath Scene.host "W@L[7]:/A[5]->Mesh[3]/".
Proof.
  apply (FindUActorByPath_ignores_indices Scene.host
           "W@L[0]:/A[0]" "W@L[7]:/A[5]->Mesh[3]/"
           (mkPath "W" "L" 0 "A" 0 [] [])
           (mkPath "W" "L" 7 "A" 5 ["Mesh"] [3])); reflexivity.
Defined.

Lemma scan_hit_cand (cand : Ptr -> bool) (Index : Z) (Xs : list Ptr) :
  forall hit c, fst (scan cand Index Xs hit) = Some c ->
  cand c = true /\ In c Xs.
Proof.
  induction Xs as [|X Xs IH]; intros hit c H; cbn [scan] in H.
  - discriminate.
  - destruct (cand X) eqn:EX; cbn [negb] in H.
    + destruct (hit =? Index)%Z.
      * cbn [fst] in H. injection H as <-. split; [exact EX|now left].
      * destruct (IH _ _ H). split; [assumption|now right].
    + destruct (IH _ _ H). split; [assumption|now right].
Qed.

Lemma component_walk_result (cand : string -> Ptr -> bool)
    (Components : list Ptr) (Names : list string) :
  forall Indices M c,
  component_walk cand Components Names Indices M = Some c ->
  M = Some c
  \/ exists N, In N Names /\ cand N c = true /\ In c Components.
Proof.
  induction Names as [|N Names IH]; intros Indices M c H;
    cbn [component_walk] in H; [now left|].
  destruct Indices as [|I Indices]; [now left|].
  destruct (scan (cand N) I Components 0) as [hit n] eqn:E.
  destruct (n <? I)%Z; [discriminate|].
  destruct (IH _ _ _ H) as [HM|(N' & HN & Hc & HIn)].
  - destruct hit as [c'|]; [|now left].
    injection HM as ->. right. exists N.
    assert (fst (scan (cand N) I Components 0) = Some c) as Hf
      by now rewrite E.
    destruct (scan_hit_cand _ _ _ _ _ Hf). split; [now left|tauto].
  - right. exists N'. split; [now right|tauto].
Qed.

Lemma locate_actor_then_some (h : Host) (r : FPathStructure)
    (stage : Host -> FPathStructure -> Ptr -> Outcome) (c : Ptr) :
  locate_actor_then h r stage = Returned (Some c) ->
  exists Actor, named h (ActorName r) Actor = true
                /\ stage h r Actor = Returned (Some c).
Proof.
  unfold locate_actor_then. intros H.
  destruct (FindObject_UWorld h (WorldName r)) as [World|]; [|discriminate].
  destruct (fst (scan (named h (LevelName r)) (LevelIndex r)
                      (GetAllLevelsInWorld h World) 0)) as [Level|];
    [|discriminate].
  destruct (fst (scan (named h (ActorName r)) (ActorIndex r)
                      (GetAllActorsInLevel h Level) 0)) as [Actor|] eqn:E;
    [|discriminate].
  exists Actor. split; [|exact H].
  now destruct (scan_hit_cand _ _ _ _ _ E).
Qed.

Lemma In_GetAllComponentsInActor (h : Host) (Actor c : Ptr) :
  In c (GetAllComponentsInActor h Actor) -> In c (GetComponents h Actor).
Proof.
  apply Permutation_in. apply Sort_perm.
Qed.

(** X11. A resolver returns a component only for a path that parsed (the
    log is then empty), and the component is genuine: it belongs to an
    actor whose name is the actor name of the path and its name is the
    name of a component step of the path; what [FindSceneComponentByPath]
    returns is moreover a scene component. *)
Theorem returned_component_is_genuine (h : Host) (Path : string) (c : Ptr)
    (log : list string) :
  (FindActorComponentByPath h Path = (Returned (Some c), log) ->
   log = []
   /\ exists r Actor N,
        TryParse Path = ParseOk r
        /\ named h (ActorName r) Actor = true
        /\ In c (GetComponents h Actor)
        /\ ComponentNames r = [N] /\ named h N c = true)
  /\ (FindSceneComponentByPath h Path = (Returned (Some c), log) ->
      log = []
      /\ IsSceneComponent h c = true
      /\ exists r Actor N,
           TryParse Path = ParseOk r
           /\ named h (ActorName r) Actor = true
           /\ In c (GetComponents h Actor)
           /\ In N (ComponentNames r) /\ named h N c = true).
Proof.
  split; intros H.
  - unfold FindActorComponentByPath in H.
    destruct (IsEmpty Path); [discriminate|].
    repeat (match type of H with
            | context [FString_equals Path ?S] =>
                destruct (FString_equals Path S); [discriminate|]
            end).
    unfold parse_or_log in H.
    destruct (TryParse Path) as [r|e] eqn:EP.
    + injection H as H <-. split; [reflexivity|].
      destruct (locate_actor_then_some _ _ _ _ H) as (Actor & HA & Hs).
      unfold actor_component_stage in Hs.
      destruct (negb (Nat.eqb (List.length (ComponentNames r))
                              (List.length (ComponentIndices r))));
        [discriminate|].
      destruct (Nat.eqb_spec (List.length (ComponentNames r)) 1) as [E1|];
        [|discriminate].
      cbn [negb] in Hs. injection Hs as Hs.
      destruct (component_walk_result _ _ _ _ _ _ Hs)
        as [?|(N & HN & Hc & HIn)]; [discriminate|].
      destruct (ComponentNames r) as [|N0 [|? ?]] eqn:EN; try discriminate.
      destruct HN as [->|[]].
      exists r, Actor, N.
      repeat split; try assumption; try reflexivity.
      now apply In_GetAllComponentsInActor.
    + injection H as H _. exfalso.
      destruct (locate_actor_then_some _ _ _ _ H) as (Actor & _ & Hs).
      discriminate Hs.
  - unfold FindSceneComponentByPath in H.
    destruct (IsEmpty Path); [discriminate|].
    repeat (match type of H with
            | context [FString_equals Path ?S] =>
                destruct (FString_equals Path S); [discriminate|]
            end).
    unfold parse_or_log in H.
    destruct (TryParse Path) as [r|e] eqn:EP.
    + injection H as H <-. split; [reflexivity|].
      destruct (locate_actor_then_some _ _ _ _ H) as (Actor & HA & Hs).
      unfold scene_component_stage in Hs.
      destruct (negb (Nat.eqb (List.length (ComponentNames r))
                              (List.length (ComponentIndices r))));
        [discriminate|].
      destruct (Nat.eqb (List.length (ComponentNames r)) 0); [discriminate|].
      injection Hs as Hs.
      destruct (component_walk_result _ _ _ _ _ _ Hs)
        as [?|(N & HN & Hc & HIn)]; [discriminate|].
      unfold scene_named in Hc. apply andb_true_iff in Hc as [Hsc Hnm].
      split; [exact Hsc|].
      exists r, Actor, N.
      repeat split; try assumption.
      now apply In_GetAllComponentsInActor.
    + injection H as H _. exfalso.
      destruct (locate_actor_then_some _ _ _ _ H) as (Actor & _ & Hs).
      discriminate Hs.
Qed.

Lemma returned_component_is_genuine_witness :
  @nil string = []
  /\ IsSceneComponent Scene.host 1001%N = true
  /\ exists r Actor N,
       TryParse "W@l[0]:/a[0]->root[0]/MESH[0]/" = ParseOk r
       /\ named Scene.host (ActorName r) Actor = true
       /\ In 1001%N (GetComponents Scene.host Actor)
       /\ In N (ComponentNames r) /\ named Scene.host N 1001%N = true.
Proof.
  apply (proj2 (returned_component_is_genuine Scene.host
                  "W@l[0]:/a[0]->root[0]/MESH[0]/" 1001%N [])).
  reflexivity.
Defined.

(** With a single step the walk returns what the scan of that step finds. *)
Lemma component_walk_single (cand : string -> Ptr -> bool)
    (Components : list Ptr) (N : string) (I : Z) :
  component_walk cand Components [N] [I] None
  = fst (scan (cand N) I Components 0).
Proof.
  cbn [component_walk].
  destruct (scan (cand N) I Components 0) as [[c|] n] eqn:E; cbn [fst].
  - rewrite (scan_hit_counter _ _ _ _ _ _ E), Z.ltb_irrefl. reflexivity.
  - now destruct (n <? I)%Z.
Qed.

(** X12. On a path with exactly one component step ([N], [I]) whose world,
    level and actor are found, [FindActorComponentByPath] returns the
    [I]-th of the actor's components named [N], counted in ascending order
    of unique id, and null when there are not that many. *)
Theorem FindActorComponentByPath_single_step (h : Host) (Path : string)
    (r : FPathStructure) (World Level Actor : Ptr) (N : string) (I : Z) :
  TryParse Path = ParseOk r ->
  FindObject_UWorld h (WorldName r) = Some World ->
  nth_same_name h (LevelName r) (LevelIndex r) (GetAllLevelsInWorld h World)
  = Some Level ->
  nth_same_name h (ActorName r) (ActorIndex r) (GetAllActorsInLevel h Level)
  = Some Actor ->
  ComponentNames r = [N] -> ComponentIndices r = [I] ->
  FindActorComponentByPath h Path
  = (Returned (nth_same_name h N I (GetAllComponentsInActor h Actor)), []).
Proof.
  intros HP HW HL HA HN HI.
  rewrite (FindActorComponentByPath_parsed h Path r HP).
  unfold locate_actor_then.
  rewrite HW, scan_nth_same_name, HL, scan_nth_same_name, HA.
  unfold actor_component_stage. rewrite HN, HI. cbn [List.length Nat.eqb negb].
  now rewrite component_walk_single, scan_nth_same_name.
Qed.

Lemma FindActorComponentByPath_single_step_witness :
  FindActorComponentByPath Scene.host "W@L[0]:/A[0]->Mesh[0]/"
  = (Returned (nth_same_name Scene.host "Mesh" 0
                 (GetAllComponentsInActor Scene.host 100%N)), []).
Proof.
  apply (FindActorComponentByPath_single_step Scene.host
           "W@L[0]:/A[0]->Mesh[0]/" (mkPath "W" "L" 0 "A" 0 ["Mesh"] [0])
           1%N 10%N 100%N "Mesh" 0); reflexivity.
Defined.

(** When every step has a hit the walk returns the hit of the last step. *)
Lemma component_walk_all_hit (cand : string -> Ptr -> bool)
    (Components : list Ptr) (Names : list string) :
  forall Indices M N I c,
  Forall2 (fun N' I' => exists c', fst (scan (cand N') I' Components 0)
                                   = Some c') Names Indices ->
  fst (scan (cand N) I Components 0) = Some c ->
  component_walk cand Components (Names ++ [N]) (Indices ++ [I]) M = Some c.
Proof.
  induction Names as [|N' Names IH]; intros Indices M N I c HF Hlast.
  - inversion HF; subst. cbn [app component_walk].
    destruct (scan (cand N) I Components 0) as [hit n] eqn:E.
    cbn [fst] in Hlast. subst hit.
    now rewrite (scan_hit_counter _ _ _ _ _ _ E), Z.ltb_irrefl.
  - inversion HF as [|? I' ? Indices' [c' Hc'] HF']; subst.
    cbn [app component_walk].
    destruct (scan (cand N') I' Components 0) as [hit n] eqn:E.
    cbn [fst] in Hc'. subst hit.
    rewrite (scan_hit_counter _ _ _ _ _ _ E), Z.ltb_irrefl.
    now apply IH.
Qed.

(** X13. [FindSceneComponentByPath] matches every step against the whole
    component array of the actor: when each step of the path names a scene
    component that exists, the call returns the match of the last step
    alone, whatever the earlier steps are. *)
Theorem FindSceneComponentByPath_last_step (h : Host) (Path : string)
    (r : FPathStructure) (World Level Actor : Ptr)
    (Names : list string) (Indices : list Z) (N : string) (I : Z) (c : Ptr) :
  TryParse Path = ParseOk r ->
  FindObject_UWorld h (WorldName r) = Some World ->
  nth_same_name h (LevelName r) (LevelIndex r) (GetAllLevelsInWorld h World)
  = Some Level ->
  nth_same_name h (ActorName r) (ActorIndex r) (GetAllActorsInLevel h Level)
  = Some Actor ->
  ComponentNames r = (Names ++ [N])%list ->
  ComponentIndices r = (Indices ++ [I])%list ->
  Forall2 (fun N' I' =>
             exists c', fst (scan (scene_named h N') I'
                                  (GetAllComponentsInActor h Actor) 0)
                        = Some c') Names Indices ->
  fst (scan (scene_named h N) I (GetAllComponentsInActor h Actor) 0) = Some c ->
  FindSceneComponentByPath h Path = (Returned (Some c), []).
Proof.
  intros HP HW HL HA HN HI HF Hlast.
  rewrite (FindSceneComponentByPath_parsed h Path r HP).
  unfold locate_actor_then.
  rewrite HW, scan_nth_same_name, HL, scan_nth_same_name, HA.
  unfold scene_component_stage. rewrite HN, HI.
  rewrite !length_app, (Forall2_length HF), Nat.eqb_refl.
  cbn [List.length negb].
  replace (Nat.eqb (List.length Indices + 1) 0) with false
    by (symmetry; apply Nat.eqb_neq; lia).
  now rewrite (component_walk_all_hit _ _ _ _ _ _ _ _ HF Hlast).
Qed.

Lemma FindSceneComponentByPath_last_step_witness :
  FindSceneComponentByPath Scene.host "W@L[0]:/A[0]->Mesh[0]/Root[0]/"
  = (Returned (Some 1000%N), []).
Proof.
  apply (FindSceneComponentByPath_last_step Scene.host
           "W@L[0]:/A[0]->Mesh[0]/Root[0]/"
           (mkPath "W" "L" 0 "A" 0 ["Mesh"; "Root"] [0; 0])
           1%N 10%N 100%N ["Mesh"] [0] "Root" 0 1000%N);
    try reflexivity.
  constructor; [|constructor]. exists 1001%N. reflexivity.
Defined.

(** X14. The throw ["Component names and indices must be the same length"]
    of the two component resolvers can never happen, whatever the host and
    the path, and [FindUActorByPath] never throws at all. *)
Theorem length_mismatch_is_never_thrown (h : Host) (Path : string) :
  fst (FindActorComponentByPath h Path)
  <> Thrown "Component names and indices must be the same length"
  /\ fst (FindSceneComponentByPath h Path)
     <> Thrown "Component names and indices must be the same length"
  /\ forall msg, fst (FindUActorByPath h Path) <> Thrown msg.
Proof.
  assert (forall r stage msg,
            (forall Actor, stage h r Actor <> Thrown msg) ->
            locate_actor_then h r stage <> Thrown msg) as Hloc.
  { intros r stage msg Hs. unfold locate_actor_then.
    destruct (FindObject_UWorld h (WorldName r)); [|discriminate].
    destruct (fst (scan _ _ _ _)); [|discriminate].
    destruct (fst (scan _ _ _ _)); [|discriminate].
    apply Hs. }
  assert (forall r, List.length (ComponentNames r)
                    = List.length (ComponentIndices r) ->
            (forall Actor, actor_component_stage h r Actor
               <> Thrown "Component names and indices must be the same length")
            /\ (forall Actor, scene_component_stage h r Actor
               <> Thrown "Component names and indices must be the same length"))
    as Hstage.
  { intros r Hlen. unfold actor_component_stage, scene_component_stage.
    rewrite Hlen, Nat.eqb_refl. cbn [negb].
    split; intros Actor.
    - destruct (negb _); discriminate.
    - destruct (Nat.eqb _ 0); discriminate. }
  assert (List.length (ComponentNames (fst (parse_or_log h Path)))
          = List.length (ComponentIndices (fst (parse_or_log h Path))))
    as Hlen.
  { unfold parse_or_log. destruct (TryParse Path) as [r|e] eqn:EP;
      cbn [fst]; [|reflexivity].
    now destruct (TryParse_ok Path r EP) as (_ & _ & _ & _ & _ & Hl). }
  split; [|split].
  - unfold FindActorComponentByPath.
    destruct (IsEmpty Path); [discriminate|].
    repeat (match goal with
            | |- context [FString_equals Path ?S] =>
                destruct (FString_equals Path S); [discriminate|]
            end).
    destruct (parse_or_log h Path) as [r log]. cbn [fst] in *.
    apply Hloc. now apply Hstage.
  - unfold FindSceneComponentByPath.
    destruct (IsEmpty Path); [discriminate|].
    repeat (match goal with
            | |- context [FString_equals Path ?S] =>
                destruct (FString_equals Path S); [discriminate|]
            end).
    destruct (parse_or_log h Path) as [r log]. cbn [fst] in *.
    apply Hloc. now apply Hstage.
  - intros msg. unfold FindUActorByPath.
    destruct (IsEmpty Path); [discriminate|].
    repeat (match goal with
            | |- context [FString_equals Path ?S] =>
                destruct (FString_equals Path S); [discriminate|]
            end).
    destruct (parse_or_log h Path) as [r log].
    destruct (FindObject_UWorld h (WorldName r)) as [World|]; [|discriminate].
    destruct (FindObject_ULevel h World (LevelName r)) as [Level|];
      [|discriminate].
    destruct (FindObject_AActor h Level (ActorName r)); discriminate.
Qed.

(** ** The formatter *)

Lemma actor_index_from_found (h : Host) (Actor : Ptr) (Levels : list Ptr) :
  forall i k Level,
  nth_error Levels k = Some Level ->
  In Actor (GetAllActorsInLevel h Level) ->
  (forall j L', (j < k)%nat -> nth_error Levels j = Some L' ->
                ~ In Actor (GetAllActorsInLevel h L')) ->
  actor_index_from h Actor Levels i = i + Z.of_nat k.
Proof.
  induction Levels as [|L0 Levels IH]; intros i k Level Hk HIn Hfirst.
  - destruct k; discriminate.
  - cbn [actor_index_from].
    destruct k as [|k].
    + cbn [nth_error] in Hk. injection Hk as ->.
      assert (existsb (fun A => N.eqb A Actor) (GetAllActorsInLevel h Level)
              = true) as ->.
      { apply existsb_exists. exists Actor. split; [exact HIn|].
        apply N.eqb_refl. }
      lia.
    + assert (existsb (fun A => N.eqb A Actor) (GetAllActorsInLevel h L0)
              = false) as ->.
      { destruct (existsb _ _) eqn:E; [|reflexivity].
        apply existsb_exists in E as (A & HA & Heq).
        apply N.eqb_eq in Heq. subst A.
        exfalso. apply (Hfirst 0%nat L0); [lia|reflexivity|exact HA]. }
      rewrite (IH (i + 1) k Level Hk HIn); [lia|].
      intros j L' Hj HL'. apply (Hfirst (S j) L'); [lia|exact HL'].
Qed.

Lemma actor_index_from_missing (h : Host) (Actor : Ptr) (Levels : list Ptr) :
  forall i,
  (forall Level, In Level Levels -> ~ In Actor (GetAllActorsInLevel h Level)) ->
  actor_index_from h Actor Levels i = -1.
Proof.
  induction Levels as [|L0 Levels IH]; intros i H; cbn [actor_index_from];
    [reflexivity|].
  assert (existsb (fun A => N.eqb A Actor) (GetAllActorsInLevel h L0) = false)
    as ->.
  { destruct (existsb _ _) eqn:E; [|reflexivity].
    apply existsb_exists in E as (A & HA & Heq).
    apply N.eqb_eq in Heq. subst A.
    exfalso. apply (H L0); [now left|exact HA]. }
  apply IH. intros Level HL. apply H. now right.
Qed.

(** X15. The actor index that [GetWorldPath] writes is computed by
    [GetIndexOfSameActor], which returns the position, among the levels of
    the actor's world, of the first level whose actor list holds the
    actor, and -1 when no level does; the position of the actor inside
    that list plays no role, so every actor of the persistent level gets
    the index 0. *)
Theorem GetIndexOfSameActor_is_level_position (h : Host) (Actor World : Ptr) :
  GetWorld h Actor = Some World ->
  (forall k Level,
     nth_error (GetAllLevelsInWorld h World) k = Some Level ->
     In Actor (Actors h Level) ->
     (forall j L', (j < k)%nat ->
        nth_error (GetAllLevelsInWorld h World) j = Some L' ->
        ~ In Actor (Actors h L')) ->
     GetIndexOfSameActor h Actor = Some (Z.of_nat k))
  /\ (In Actor (Actors h (PersistentLevel h World)) ->
      GetIndexOfSameActor h Actor = Some 0)
  /\ ((forall Level, In Level (GetAllLevelsInWorld h World) ->
         ~ In Actor (Actors h Level)) ->
      GetIndexOfSameActor h Actor = Some (-1)).
Proof.
  intros HW. unfold GetIndexOfSameActor. rewrite HW.
  split; [|split].
  - intros k Level Hk HIn Hfirst.
    now rewrite (actor_index_from_found h Actor _ 0 k Level Hk HIn Hfirst).
  - intros HIn.
    rewrite (actor_index_from_found h Actor _ 0 0%nat
               (PersistentLevel h World)); try reflexivity; try exact HIn.
    intros j L' Hj. lia.
  - intros H. now rewrite actor_index_from_missing.
Qed.

Lemma GetIndexOfSameActor_is_level_position_witness :
  GetIndexOfSameActor Scene.host 100%N = Some 0.
Proof.
  apply (proj1 (proj2 (GetIndexOfSameActor_is_level_position
                         Scene.host 100%N 1%N eq_refl))).
  cbn. tauto.
Defined.

Lemma index_from_missing (X : Ptr) (Xs : list Ptr) :
  forall i, ~ In X Xs -> index_from X Xs i = -1.
Proof.
  induction Xs as [|Y Xs IH]; intros i H; cbn [index_from]; [reflexivity|].
  destruct (N.eqb_spec Y X) as [->|_].
  - exfalso. apply H. now left.
  - apply IH. intros HIn. apply H. now right.
Qed.

Lemma nth_error_lt_length (A : Type) (l : list A) (k : nat) (x : A) :
  nth_error l k = Some x -> (k < List.length l)%nat.
Proof.
  intros H. apply nth_error_Some. congruence.
Qed.

Lemma actor_index_from_bound (h : Host) (Actor : Ptr) (Levels : list Ptr) :
  forall i,
  (exists L0, In L0 Levels /\ In Actor (Actors h L0)) ->
  exists k, actor_index_from h Actor Levels i = i + Z.of_nat k
            /\ (k < List.length Levels)%nat.
Proof.
  induction Levels as [|L0 Levels IH]; intros i (L1 & HIn & HAct);
    [destruct HIn|].
  cbn [actor_index_from].
  destruct (existsb (fun A => N.eqb A Actor) (GetAllActorsInLevel h L0))
    eqn:E.
  - exists 0%nat. cbn. split; lia.
  - destruct HIn as [->|HIn].
    + exfalso. apply Bool.not_true_iff_false in E. apply E.
      apply existsb_exists. exists Actor. split; [exact HAct|].
      apply N.eqb_refl.
    + destruct (IH (i + 1) (ex_intro _ L1 (conj HIn HAct)))
        as (k & Hk & Hlt).
      exists (S k). cbn [List.length]. split; lia.
Qed.

(** X16. The text that [GetWorldPath] writes for an actor parses back:
    when the level of the actor is one of the levels of the level's world,
    some level of the actor's world holds the actor, and the three names
    hold nothing on which the parser acts, [TryParse] of that text
    succeeds with the three names, the two indices that
    [GetIndexOfSameLevel] and [GetIndexOfSameActor] return, and no
    component step.  When the level is not among those levels, the text
    holds the index -1 and [TryParse] fails on it. *)
Theorem GetWorldPath_Actor_parses (h : Host)
    (Actor World Level LevelWorld : Ptr) :
  GetWorld h Actor = Some World -> GetLevel h Actor = Some Level ->
  GetWorld h Level = Some LevelWorld ->
  inert Fill.World (GetName h World) (Some "@"%char) = true ->
  inert Fill.Level (GetName h Level) (Some "["%char) = true ->
  inert Fill.Actor (GetName h Actor) (Some "["%char) = true ->
  IsEmpty (GetName h World) = false -> IsEmpty (GetName h Level) = false ->
  IsEmpty (GetName h Actor) = false ->
  Z.of_nat (List.length (GetAllLevelsInWorld h LevelWorld)) <= 2 ^ 31 ->
  Z.of_nat (List.length (GetAllLevelsInWorld h World)) <= 2 ^ 31 ->
  (exists L', In L' (GetAllLevelsInWorld h World) /\ In Actor (Actors h L')) ->
  (In Level (GetAllLevelsInWorld h LevelWorld) ->
   exists LevelIndex ActorIndex Path,
     GetIndexOfSameLevel h Level = Some LevelIndex
     /\ GetIndexOfSameActor h Actor = Some ActorIndex
     /\ GetWorldPath_Actor h (Some Actor) = Some Path
     /\ TryParse Path
        = ParseOk (mkPath (GetName h World) (GetName h Level) LevelIndex
                          (GetName h Actor) ActorIndex [] []))
  /\ (~ In Level (GetAllLevelsInWorld h LevelWorld) ->
      exists Path,
        GetWorldPath_Actor h (Some Actor) = Some Path
        /\ TryParse Path = ParseFail "Failed to parse level index: -1").
Proof.
  intros HW HL HLW IW IL IA EW EL EA BL BW Hex.
  destruct (actor_index_from_bound h Actor _ 0 Hex) as (ka & Hai & Hka).
  cbn [Z.add] in Hai.
  assert (0 <= Z.of_nat ka < 2 ^ 31) as Rai by lia.
  split.
  - intros HIn.
    destruct (index_from_position Level _ 0 HIn) as (kl & Hkl & Hnth & _).
    pose proof (nth_error_lt_length _ _ _ _ Hnth) as Hlt.
    cbn [Z.add] in Hkl.
    assert (0 <= Z.of_nat kl < 2 ^ 31) as Rli by lia.
    exists (Z.of_nat kl), (Z.of_nat ka).
    eexists. unfold GetWorldPath_Actor, GetIndexOfSameLevel,
      GetIndexOfSameActor.
    rewrite HW, HL, HLW, Hai, Hkl.
    repeat split; try reflexivity.
    unfold TryParse, Printf_path.
    rewrite loop_actor_prefix
      by (first [assumption | apply printf_d_digits; lia]).
    cbn. rewrite EW, EL, EA. cbn.
    now rewrite !index_of_text_printf_d by assumption.
  - intros HnIn. eexists.
    unfold GetWorldPath_Actor, GetIndexOfSameLevel, GetIndexOfSameActor.
    rewrite HW, HL, HLW, Hai.
    rewrite (index_from_missing Level _ 0 HnIn).
    split; [reflexivity|].
    unfold TryParse, Printf_path, Loc.init.
    run. run.
    change (printf_d (-1)) with "-1". cbn.
    change (TryParseInt "-1") with (@None Z). reflexivity.
Qed.

Lemma GetWorldPath_Actor_parses_witness :
  exists LevelIndex ActorIndex Path,
    GetIndexOfSameLevel Scene.host 10%N = Some LevelIndex
    /\ GetIndexOfSameActor Scene.host 100%N = Some ActorIndex
    /\ GetWorldPath_Actor Scene.host (Some 100%N) = Some Path
    /\ TryParse Path
       = ParseOk (mkPath (GetName Scene.host 1%N) (GetName Scene.host 10%N)
                         LevelIndex (GetName Scene.host 100%N) ActorIndex
                         [] []).
Proof.
  apply (proj1 (GetWorldPath_Actor_parses Scene.host 100%N 1%N 10%N 1%N
                  eq_refl eq_refl eq_refl eq_refl eq_refl eq_refl
                  eq_refl eq_refl eq_refl
                  ltac:(cbn; lia) ltac:(cbn; lia)
                  (ex_intro _ 10%N (conj (or_introl eq_refl)
                                         (or_introl eq_refl))))).
  cbn. tauto.
Defined.

(** X17. What the formatter returns when an object is missing, fed back to
    the component resolvers.  The texts that the actor overload and the
    component overload of [GetWorldPath] return for a missing world, level,
    actor or owner are caught by the guards of both component resolvers:
    null, nothing logged.  The text for a null component,
    ["[invalid component]"], and the four texts of the scene-component
    overload are not caught: they are parsed, fail, and the parse error is
    logged. *)
Theorem GetWorldPath_sentinels (fuel : nat) (h h' : Host) :
  (forall Actor : option Ptr,
     match Actor with
     | None => True
     | Some a => GetWorld h a = None \/ GetLevel h a = None
     end ->
     exists s, GetWorldPath_Actor h Actor = Some s
               /\ FindActorComponentByPath h' s = (Returned None, [])
               /\ FindSceneComponentByPath h' s = (Returned None, []))
  /\ (forall c : Ptr,
     GetWorld h c = None \/ GetLevel h c = None \/ GetOwner h c = None ->
     exists s, GetWorldPath_ActorComponent fuel h (Some c) = Some s
               /\ FindActorComponentByPath h' s = (Returned None, [])
               /\ FindSceneComponentByPath h' s = (Returned None, []))
  /\ (GetWorldPath_ActorComponent fuel h None = Some "[invalid component]"
      /\ snd (FindActorComponentByPath h' "[invalid component]")
         = ["Missing required path components"]
      /\ snd (FindSceneComponentByPath h' "[invalid component]")
         = ["Missing required path components"])
  /\ (forall C : option Ptr,
     match C with
     | None => True
     | Some c =>
         GetWorld h c = None \/ GetLevel h c = None \/ GetOwner h c = None
     end ->
     exists s, GetWorldPath_SceneComponent fuel h C = Some s
               /\ snd (FindActorComponentByPath h' s)
                  = ["Missing required path components"]
               /\ snd (FindSceneComponentByPath h' s)
                  = ["Missing required path components"]).
Proof.
  split; [|split; [|split]].
  - intros [a|] H; cbn [GetWorldPath_Actor].
    + destruct (GetWorld h a); [|eexists; repeat split; reflexivity].
      destruct (GetLevel h a); [|eexists; repeat split; reflexivity].
      destruct H; discriminate.
    + eexists; repeat split; reflexivity.
  - intros c H. cbn [GetWorldPath_ActorComponent].
    destruct (GetWorld h c); [|eexists; repeat split; reflexivity].
    destruct (GetLevel h c); [|eexists; repeat split; reflexivity].
    destruct (GetOwner h c); [|eexists; repeat split; reflexivity].
    destruct H as [H|[H|H]]; discriminate.
  - repeat split; reflexivity.
  - intros [c|] H; cbn [GetWorldPath_SceneComponent].
    + destruct (GetWorld h c); [|eexists; repeat split; reflexivity].
      destruct (GetLevel h c); [|eexists; repeat split; reflexivity].
      destruct (GetOwner h c); [|eexists; repeat split; reflexivity].
      destruct H as [H|[H|H]]; discriminate.
    + eexists; repeat split; reflexivity.
Qed.

Lemma GetWorldPath_sentinels_witness :
  exists s, GetWorldPath_Actor Scene.host None = Some s
            /\ FindActorComponentByPath Scene.host s = (Returned None, [])
            /\ FindSceneComponentByPath Scene.host s = (Returned None, []).
Proof.
  apply (proj1 (GetWorldPath_sentinels 0 Scene.host Scene.host) None).
  exact I.
Defined.

(** ** [UWorldNavigator::GetSceneComponentHierarchy] *)

Lemma hierarchy_loop_chain (h : Host) (link : Ptr -> string)
    (parents : list Ptr) :
  forall fuel c Result,
  attach_chain h c parents ->
  (forall x, In x parents ->
     exists i, GetIndexOfSameComponent h x = Some i
               /\ link x = Printf_link (GetName h x) i) ->
  (List.length parents < fuel)%nat ->
  hierarchy_loop fuel h c Result = Some (Result ++ map link parents)%list.
Proof.
  induction parents as [|p parents IH]; intros fuel c Result Hc Hi Hf.
  - cbn [attach_chain] in Hc. destruct fuel as [|fuel]; [cbn in Hf; lia|].
    cbn [hierarchy_loop map]. now rewrite Hc, app_nil_r.
  - cbn [attach_chain] in Hc. destruct Hc as [Hp Hc].
    destruct fuel as [|fuel]; [cbn in Hf; lia|].
    cbn [hierarchy_loop]. rewrite Hp.
    destruct (Hi p (or_introl eq_refl)) as (i & Hidx & Hlink).
    rewrite Hidx, <- Hlink.
    rewrite (IH fuel p _ Hc); [|intros x Hx; apply Hi; now right
                               |cbn [List.length] in Hf; lia].
    cbn [map]. now rewrite <- app_assoc.
Qed.

(** X18. [GetSceneComponentHierarchy] follows the attach parents of the
    component up to the root and returns one link ["<name>[<index>]"] per
    component met, the root first and the component itself last; the index
    of each link is what [GetIndexOfSameComponent] returns for that
    component. *)
Theorem GetSceneComponentHierarchy_root_first (h : Host) (fuel : nat)
    (c : Ptr) (parents : list Ptr) (link : Ptr -> string) :
  attach_chain h c parents ->
  (forall x, In x (c :: parents) ->
     exists i, GetIndexOfSameComponent h x = Some i
               /\ link x = Printf_link (GetName h x) i) ->
  (List.length parents < fuel)%nat ->
  GetSceneComponentHierarchy fuel h c
  = Some (map link (rev parents) ++ [link c])%list.
Proof.
  intros Hc Hi Hf. unfold GetSceneComponentHierarchy.
  destruct (Hi c (or_introl eq_refl)) as (i & Hidx & Hlink).
  rewrite Hidx, <- Hlink.
  rewrite (hierarchy_loop_chain h link parents fuel c _ Hc);
    [|intros x Hx; apply Hi; now right|exact Hf].
  cbn [app]. change (link c :: map link parents) with (map link (c :: parents)).
  rewrite <- map_rev. cbn [rev]. now rewrite map_app.
Qed.

Lemma GetSceneComponentHierarchy_root_first_witness :
  GetSceneComponentHierarchy 2 Scene.host 1001%N
  = Some (map (fun x => if N.eqb x 1000 then "Root[0]" else "Mesh[2]")
              (rev [1000%N])
          ++ [(fun x => if N.eqb x 1000 then "Root[0]" else "Mesh[2]") 1001%N])%list.
Proof.
  apply (GetSceneComponentHierarchy_root_first Scene.host 2 1001%N [1000%N]).
  - cbn. tauto.
  - intros x [<-|[<-|[]]]; eexists; split; reflexivity.
  - cbn. lia.
Defined.

Lemma hierarchy_loop_cycle (h : Host) (S : Ptr -> Prop) :
  (forall x, S x -> exists p, GetAttachParent h x = Some p /\ S p) ->
  forall fuel c Result, S c -> hierarchy_loop fuel h c Result = None.
Proof.
  intros HS. induction fuel as [|fuel IH]; intros c Result Hc;
    cbn [hierarchy_loop]; [reflexivity|].
  destruct (HS c Hc) as (p & Hp & HSp). rewrite Hp.
  destruct (GetIndexOfSameComponent h p); [|reflexivity].
  now apply IH.
Qed.

(** X19. When the attach parents of a component never reach a root (every
    component met has an attach parent), the [while (true)] loop of
    [GetSceneComponentHierarchy] has no exit: no number of iterations
    yields a result, and [GetWorldPath] of such a scene component, once
    its world, level and owner are there, yields none either. *)
Theorem GetSceneComponentHierarchy_needs_a_root (h : Host)
    (S : Ptr -> Prop) (c : Ptr) :
  (forall x, S x -> exists p, GetAttachParent h x = Some p /\ S p) ->
  S c ->
  forall fuel,
  GetSceneComponentHierarchy fuel h c = None
  /\ (forall World Level Owner,
        GetWorld h c = Some World -> GetLevel h c = Some Level ->
        GetOwner h c = Some Owner ->
        GetWorldPath_SceneComponent fuel h (Some c) = None).
Proof.
  intros HS Hc fuel.
  assert (GetSceneComponentHierarchy fuel h c = None) as Hnone.
  { unfold GetSceneComponentHierarchy.
    destruct (GetIndexOfSameComponent h c); [|reflexivity].
    now rewrite (hierarchy_loop_cycle h S HS fuel c _ Hc). }
  split; [exact Hnone|].
  intros World Level Owner HW HL HO. cbn [GetWorldPath_SceneComponent].
  rewrite HW, HL, HO, Hnone.
  destruct (GetIndexOfSameLevel h Level); [|reflexivity].
  now destruct (GetIndexOfSameActor h Owner).
Qed.

Lemma GetSceneComponentHierarchy_needs_a_root_witness :
  GetSceneComponentHierarchy 1000
    (mkHost (FindObject_UWorld Scene.host) (FindObject_ULevel Scene.host)
            (FindObject_AActor Scene.host) (GetName Scene.host)
            (GetUniqueID Scene.host) (PersistentLevel Scene.host)
            (GetLevels Scene.host) (Actors Scene.host)
            (GetComponents Scene.host) (IsSceneComponent Scene.host)
            (fun x => if N.eqb x 1000 then Some 1001%N else Some 1000%N)
            (GetWorld Scene.host) (GetLevel Scene.host)
            (GetOwner Scene.host) (Indeterminate Scene.host))
    1001%N = None.
Proof.
  refine (proj1 (GetSceneComponentHierarchy_needs_a_root _
                   (fun x => x = 1000%N \/ x = 1001%N) 1001%N _ _ 1000%nat)).
  - intros x [-> | ->]; eexists; (split; [reflexivity|]); tauto.
  - now right.
Defined.

(** ** The two component resolvers compared *)

Lemma scan_ext (cand1 cand2 : Ptr -> bool) (Index : Z) (Xs : list Ptr) :
  forall hit,
  (forall x, In x Xs -> cand1 x = cand2 x) ->
  scan cand1 Index Xs hit = scan cand2 Index Xs hit.
Proof.
  induction Xs as [|X Xs IH]; intros hit H; cbn [scan]; [reflexivity|].
  rewrite (H X (or_introl eq_refl)).
  destruct (cand2 X); cbn [negb].
  - destruct (hit =? Index)%Z; [reflexivity|].
    apply IH. intros x Hx. apply H. now right.
  - apply IH. intros x Hx. apply H. now right.
Qed.

(** X24. The two component resolvers count differently: for a step
    ([N], [I]) [FindActorComponentByPath] counts every component named
    [N], [FindSceneComponentByPath] only the scene components named [N].
    On a path with one step whose actor is found they return the same
    component as soon as every component of the actor named [N] is a
    scene component. *)
Theorem component_resolvers_agree (h : Host) (Path : string)
    (r : FPathStructure) (World Level Actor : Ptr) (N : string) (I : Z) :
  TryParse Path = ParseOk r ->
  FindObject_UWorld h (WorldName r) = Some World ->
  nth_same_name h (LevelName r) (LevelIndex r) (GetAllLevelsInWorld h World)
  = Some Level ->
  nth_same_name h (ActorName r) (ActorIndex r) (GetAllActorsInLevel h Level)
  = Some Actor ->
  ComponentNames r = [N] -> ComponentIndices r = [I] ->
  (forall c, In c (GetComponents h Actor) -> named h N c = true ->
             IsSceneComponent h c = true) ->
  FindSceneComponentByPath h Path = FindActorComponentByPath h Path.
Proof.
  intros HP HW HL HA HN HI Hsc.
  rewrite (FindActorComponentByPath_parsed h Path r HP).
  rewrite (FindSceneComponentByPath_parsed h Path r HP).
  unfold locate_actor_then.
  rewrite HW, scan_nth_same_name, HL, scan_nth_same_name, HA.
  unfold actor_component_stage, scene_component_stage.
  rewrite HN, HI. cbn [List.length Nat.eqb negb].
  rewrite !component_walk_single. do 3 f_equal.
  apply scan_ext. intros c Hc. unfold scene_named.
  fold (named h N c).
  destruct (named h N c) eqn:E; [|now rewrite andb_false_r].
  rewrite (Hsc c); [reflexivity| |exact E].
  now apply In_GetAllComponentsInActor.
Qed.

Lemma component_resolvers_agree_witness :
  FindSceneComponentByPath Scene.host "W@L[0]:/A[0]->Mesh[0]/"
  = FindActorComponentByPath Scene.host "W@L[0]:/A[0]->Mesh[0]/".
Proof.
  apply (component_resolvers_agree Scene.host "W@L[0]:/A[0]->Mesh[0]/"
           (mkPath "W" "L" 0 "A" 0 ["Mesh"] [0]) 1%N 10%N 100%N "Mesh" 0);
    try reflexivity.
  intros c. cbn.
  intros [<-|[<-|[<-|[]]]]; cbn; first [reflexivity | discriminate].
Defined.

(** ** [URepr.h] *)

Lemma separated_loop_Join (T : Type) (text : T -> string) (xs : list T) :
  forall Result,
  separated_loop T text xs Result = Result ++ Join (map text xs) ", ".
Proof.
  induction xs as [|x xs IH]; intros Result; cbn [separated_loop map].
  - cbn [Join]. now rewrite append_nil_r.
  - destruct xs as [|y xs].
    + reflexivity.
    + rewrite IH. cbn [map Join]. now rewrite !append_assoc.
Qed.

(** X20. The texts of the containers: [Repr] of an array is ["["], the
    texts of the elements separated by [", "] (nothing after the last
    one), then ["]"]; a set is written the same way between braces, a map
    as ["<key>: <value>"] entries between braces, a tuple between
    parentheses; an empty container gives the two delimiters alone, and a
    tuple of two members is written like the pair of the same members. *)
Theorem Repr_of_containers :
  (forall (T : Type) (R : HasRepr T) (Array : list T),
     Repr Array = "[" ++ Join (map Repr Array) ", " ++ "]")
  /\ (forall (T : Type) (R : HasRepr T) (elements : list T),
     Repr (SetOf T elements) = "{" ++ Join (map Repr elements) ", " ++ "}")
  /\ (forall (K V : Type) (RK : HasRepr K) (RV : HasRepr V)
             (pairs : list (K * V)),
     Repr (MapOf K V pairs)
     = "{" ++ Join (map (fun Pair => Repr (fst Pair) ++ ": "
                                     ++ Repr (snd Pair)) pairs) ", "
       ++ "}")
  /\ (forall Elements : list string,
     Repr_TTuple Elements = "(" ++ Join Elements ", " ++ ")")
  /\ (forall (T U : Type) (RT : HasRepr T) (RU : HasRepr U) (a : T) (b : U),
     Repr_TTuple [Repr a; Repr b] = Repr (a, b))
  /\ (forall (T : Type) (R : HasRepr T),
     Repr (@nil T) = "[]" /\ Repr (SetOf T []) = "{}")
  /\ Repr_TTuple [] = "()".
Proof.
  repeat split.
  - intros T R Array. unfold Repr at 1, Repr_TArray.
    now rewrite separated_loop_Join, append_assoc.
  - intros T R elements. unfold Repr at 1, Repr_TSet.
    now rewrite separated_loop_Join, append_assoc.
  - intros K V RK RV pairs. unfold Repr at 1, Repr_TMap.
    now rewrite separated_loop_Join, append_assoc.
  - intros Elements. unfold Repr_TTuple, ReprTupleImpl.
    rewrite separated_loop_Join, map_id. reflexivity.
  - intros T U RT RU a b. unfold Repr_TTuple, ReprTupleImpl.
    cbn [separated_loop].
    change (Repr (a, b)) with ("(" ++ Repr a ++ ", " ++ Repr b ++ ")").
    rewrite !append_assoc. reflexivity.
Qed.

(** X21. [Repr] of an [FString] puts the text between double quotes
    without escaping anything, so the text of a container of strings does
    not determine the container: an array of one string that holds
    [", "] between double quotes is written like an array of two
    strings. *)
Theorem Repr_of_strings_is_ambiguous (a b : string) :
  Repr [a ++ String quote (", " ++ String quote b)] = Repr [a; b]
  /\ [a ++ String quote (", " ++ String quote b)] <> [a; b].
Proof.
  split; [|discriminate].
  cbv [Repr Repr_TArray Repr_FString separated_loop].
  cbn [append]. rewrite !append_assoc. cbn [append].
  rewrite !append_assoc. reflexivity.
Qed.

Lemma length_append (a b : string) :
  String.length (a ++ b) = (String.length a + String.length b)%nat.
Proof. induction a as [|c a IH]; cbn; [reflexivity|now rewrite IH]. Qed.

Lemma append_cancel_r (t : string) (a : string) :
  forall b, a ++ t = b ++ t -> a = b.
Proof.
  induction a as [|x a IH]; intros [|y b] H.
  - reflexivity.
  - exfalso. apply (f_equal String.length) in H.
    cbn [append String.length] in H. rewrite length_append in H. lia.
  - exfalso. apply (f_equal String.length) in H.
    cbn [append String.length] in H. rewrite length_append in H. lia.
  - cbn [append] in H. injection H as -> H. f_equal. now apply IH.
Qed.

Lemma digits_of_value (n : Z) :
  0 <= n < 10 ^ 10 -> decimal_value (digits_of 10 n "") = n.
Proof.
  intros H. unfold decimal_value.
  rewrite decimal_from_digits_of; [reflexivity|].
  change (Z.of_nat 10) with 10. exact H.
Qed.

Lemma digits_of_not_minus (fuel : nat) (n : Z) (d : string) :
  0 <= n -> digits_of fuel n "" <> String "-" d.
Proof.
  intros Hn H.
  pose proof (digits_only_digits_of fuel n "" Hn eq_refl) as Hd.
  rewrite H in Hd. discriminate Hd.
Qed.

Lemma printf_d_injective (x y : Z) :
  - 10 ^ 10 < x < 10 ^ 10 -> - 10 ^ 10 < y < 10 ^ 10 ->
  printf_d x = printf_d y -> x = y.
Proof.
  intros Hx Hy H. unfold printf_d in H.
  destruct (Z.ltb_spec x 0) as [Nx|Px]; destruct (Z.ltb_spec y 0) as [Ny|Py].
  - assert (digits_of 10 (- x) "" = digits_of 10 (- y) "") as Hd
      by (injection H as H; exact H).
    apply (f_equal decimal_value) in Hd.
    rewrite !digits_of_value in Hd by lia. lia.
  - exfalso. symmetry in H. revert H. apply digits_of_not_minus. lia.
  - exfalso. revert H. apply digits_of_not_minus. lia.
  - apply (f_equal decimal_value) in H.
    now rewrite !digits_of_value in H by lia.
Qed.

(** X22. The text of a number determines the number: two values of an
    integer type of at most 32 bits (from [-2^31] to [2^32 - 1]) that
    [Repr] writes with the same text are equal, for the [int32], [int8],
    [int16], [uint8], [uint16] and [uint32] templates alike. *)
Theorem Repr_of_integers_is_injective (x y : Z) :
  - 2 ^ 31 <= x < 2 ^ 32 -> - 2 ^ 31 <= y < 2 ^ 32 ->
  (Repr x = Repr y -> x = y)
  /\ (Repr_int8 x = Repr_int8 y -> x = y)
  /\ (Repr_int16 x = Repr_int16 y -> x = y)
  /\ (Repr_uint8 x = Repr_uint8 y -> x = y)
  /\ (Repr_uint16 x = Repr_uint16 y -> x = y)
  /\ (Repr_uint32 x = Repr_uint32 y -> x = y).
Proof.
  intros Hx Hy.
  assert (- 10 ^ 10 < x < 10 ^ 10) as Bx by lia.
  assert (- 10 ^ 10 < y < 10 ^ 10) as By' by lia.
  repeat split; intros H; apply (printf_d_injective x y Bx By');
    eapply append_cancel_r; exact H.
Qed.

Lemma Repr_of_integers_is_injective_witness :
  Repr_uint32 4294967295 = "4294967295_u32"
  /\ Repr (-2147483648) = "-2147483648_i32"
  /\ 2 ^ 32 - 1 = 4294967295.
Proof.
  split; [reflexivity|]. split; [reflexivity|].
  apply (Repr_of_integers_is_injective (2 ^ 32 - 1) 4294967295); try lia.
  reflexivity.
Defined.

(** ** [UCallStack.cpp] *)

Lemma substring_prefix (s t : string) :
  substring 0 (String.length s) (s ++ t) = s.
Proof.
  induction s as [|c s IH]; cbn [String.length append substring].
  - now destruct t.
  - now rewrite IH.
Qed.

Lemma LeftChop_two (name : string) (a b : ascii) :
  LeftChop 2 (name ++ String a (String b "")) = name.
Proof.
  unfold LeftChop, Left. rewrite length_append. cbn [String.length].
  replace (Z.to_nat (Z.of_nat (String.length name + 2) - 2))
    with (String.length name) by lia.
  apply substring_prefix.
Qed.

Lemma LeftChop_short (s : string) :
  (String.length s < 2)%nat -> LeftChop 2 s = "".
Proof.
  intros H. unfold LeftChop, Left.
  replace (Z.to_nat (Z.of_nat (String.length s) - 2)) with 0%nat by lia.
  now destruct s.
Qed.

(** X23. With a frame on the stack, [GetCallerName] returns the function
    name of the frame without its last two characters, whatever they are
    (the parentheses of ["Name()"] in particular), and the empty text when
    the name has fewer than two characters; [GetCallerInfo] returns
    ["<file>@<caller name>:<line>"] with the same caller name.  Without a
    frame both return ["[unknown]"]. *)
Theorem GetCallerName_chops_two (info : FProgramCounterSymbolInfo)
    (rest : list FProgramCounterSymbolInfo) :
  (forall name a b, FunctionName info = name ++ String a (String b "") ->
     GetCallerName (info :: rest) = name
     /\ GetCallerInfo (info :: rest)
        = Filename info ++ "@" ++ name ++ ":" ++ printf_d (LineNumber info))
  /\ ((String.length (FunctionName info) < 2)%nat ->
      GetCallerName (info :: rest) = ""
      /\ GetCallerInfo (info :: rest)
         = Filename info ++ "@:" ++ printf_d (LineNumber info))
  /\ GetCallerName [] = "[unknown]" /\ GetCallerInfo [] = "[unknown]".
Proof.
  repeat split.
  - cbn [GetCallerName]. rewrite H. apply LeftChop_two.
  - cbn [GetCallerInfo]. rewrite H. now rewrite LeftChop_two.
  - cbn [GetCallerName]. now apply LeftChop_short.
  - cbn [GetCallerInfo]. now rewrite LeftChop_short.
Qed.

Lemma GetCallerName_chops_two_witness :
  GetCallerName [mkSymbolInfo "Actor.cpp" "AMyActor::BeginPlay()" 42]
  = "AMyActor::BeginPlay"
  /\ GetCallerInfo [mkSymbolInfo "Actor.cpp" "AMyActor::BeginPlay()" 42]
     = "Actor.cpp" ++ "@" ++ "AMyActor::BeginPlay" ++ ":" ++ printf_d 42.
Proof.
  apply (proj1 (GetCallerName_chops_two
                  (mkSymbolInfo "Actor.cpp" "AMyActor::BeginPlay()" 42) [])
           "AMyActor::BeginPlay" "("%char ")"%char).
  reflexivity.
Defined.
